(** * owmidiparser: a shallow embedding of the MIDI-to-workshop converter

    The development follows [src/owmidiparser.js] function by function:
    [transposePitch], [roundToPlaces], [readMidiData], [convertToArray],
    [compressSongArrays], [writeWorkshopRules] and [convertMidi].

    Representation choices.
    - Integral JS numbers (pitches, counts, millisecond intervals) are [Z] or
      [nat]; times in seconds are rationals [Q], so [Math.round] is exact.
    - A chord time, i.e. a value [roundToPlaces(t, 3)], is always [k / 1000]
      for the integer [k = Math.round(t * 1000)].  The [Map] of chords is
      keyed by that integer [k] (type [Time]); [secs k] is the number of
      seconds it stands for.
    - The [Map] of chords is an association list in insertion order.
    - Objects with a fixed set of keys are records; the user supplied
      [settings] object is a [gmap string Q], a missing key reads as
      [None] (JS [undefined]).
    - [console.log] is modelled by an explicit list of log entries. *)

From Stdlib Require Import ZArith QArith Qround String Ascii List Lia.
From Stdlib Require Import DecimalString Sorted.
From stdpp Require Import base decidable option list gmap strings.
From Equations Require Import Equations.

Local Open Scope Z_scope.

(** ** Constants *)

Module PIANO_RANGE.
Definition MIN : Z := 24.
Definition MAX : Z := 88.
End PIANO_RANGE.

Definition OCTAVE : Z := 12.
Definition MAX_OW_ARRAY_SIZE : Z := 999.
Definition MAX_TOTAL_ARRAY_ELEMENTS : Z := 9000.
Definition NOTE_PRECISION : nat := 3.
Definition MAX_TIME_INTERVAL : Z := 9999.
Definition COMPRESSED_ELEMENT_LENGTH : nat := 7.

(** ** transposePitch

    The two [while] loops, each by well-founded recursion on the distance
    to the bound it approaches. *)

Equations? raiseLoop (pitch : Z) : Z
  by wf (Z.to_nat (PIANO_RANGE.MIN - pitch)) lt :=
  raiseLoop pitch with Z_lt_dec pitch PIANO_RANGE.MIN := {
    | left _ => raiseLoop (pitch + OCTAVE);
    | right _ => pitch }.
Proof. unfold PIANO_RANGE.MIN, OCTAVE in *. lia. Qed.

Equations? lowerLoop (pitch : Z) : Z
  by wf (Z.to_nat (pitch - PIANO_RANGE.MAX)) lt :=
  lowerLoop pitch with Z_gt_dec pitch PIANO_RANGE.MAX := {
    | left _ => lowerLoop (pitch - OCTAVE);
    | right _ => pitch }.
Proof. unfold PIANO_RANGE.MAX, OCTAVE in *. lia. Qed.

Definition transposePitch (pitch : Z) : Z := lowerLoop (raiseLoop pitch).

(** ** Strings and number formatting *)

Local Open Scope string_scope.

Definition dquote : string := String (ascii_of_nat 34) "".
Definition newline : string := String (ascii_of_nat 10) "".

(** [Number.prototype.toString] on an integral number. *)
Definition Number_toString (n : Z) : string :=
  NilZero.string_of_int (Z.to_int n).

(** The implicit string conversion of template literals and of
    [x.toString()]. *)
Class ToString (A : Type) := toString : A -> string.

#[global] Instance Z_ToString : ToString Z := Number_toString.
#[global] Instance string_ToString : ToString string := fun s => s.

(** A rational prints as an integer when it is one.  (JS prints a
    non-integral number as a decimal fraction; the model prints the reduced
    fraction, and nothing below depends on that case.) *)
#[global] Instance Q_ToString : ToString Q := fun q =>
  let r := Qred q in
  if Pos.eqb (Qden r) 1 then Number_toString (Qnum r)
  else Number_toString (Qnum r) ++ "/" ++ Number_toString (Zpos (Qden r)).

(** [`${v}`] where [v] may be [undefined]. *)
Definition interpolate {A} `{ToString A} (v : option A) : string :=
  match v with
  | Some x => toString x
  | None => "undefined"
  end.

(** [padStart]: the filler is [padString] repeated and truncated to the
    missing length; [rest] is what remains of the current repetition. *)
Fixpoint padding (n : nat) (padString rest : string) : string :=
  match n with
  | O => ""
  | S n' =>
      match rest with
      | String c rest' => String c (padding n' padString rest')
      | EmptyString =>
          match padString with
          | String c rest' => String c (padding n' padString rest')
          | EmptyString => ""
          end
      end
  end.

Definition padStart (s : string) (targetLength : nat) (padString : string) : string :=
  padding (targetLength - String.length s) padString padString ++ s.

Definition join (l : list string) (separator : string) : string :=
  String.concat separator l.

(** [s.slice(beginIndex, endIndex)] for non-negative indices. *)
Definition slice (s : string) (beginIndex endIndex : nat) : string :=
  substring beginIndex (endIndex - beginIndex) s.

(** ** Times *)

Local Open Scope Q_scope.

Definition Math_round (x : Q) : Z := Qfloor (x + (1 # 2)).
Definition Math_ceil (x : Q) : Z := Qceiling x.
Definition Math_pow10 (n : nat) : Q := inject_Z (10 ^ Z.of_nat n).

Definition roundToPlaces (value : Q) (decimalPlaces : nat) : Q :=
  inject_Z (Math_round (value * Math_pow10 decimalPlaces)) / Math_pow10 decimalPlaces.

(** A chord time [k / 1000] is represented by [k]. *)
Definition Time := Z.
Definition secs (k : Time) : Q := inject_Z k / 1000.

(** The key [roundToPlaces(note.time, NOTE_PRECISION)]
    (see [roundToPlaces_chordTime]). *)
Definition chordTime (t : Q) : Time := Math_round (t * Math_pow10 NOTE_PRECISION).

(** The interval
    [Math.min(roundToPlaces((currentChordTime - prevTime) * 1000, NOTE_PRECISION), MAX_TIME_INTERVAL)]
    between two chord times (see [roundToPlaces_interval]). *)
Definition timeInterval (currentChordTime prevTime : Time) : Z :=
  Z.min (currentChordTime - prevTime) MAX_TIME_INTERVAL.

(** [a < b] where [b] may be [undefined]: a comparison with [undefined] is
    false. *)
Definition js_lt (a : Q) (b : option Q) : bool :=
  match b with
  | Some b => negb (Qle_bool b a)
  | None => false
  end.

(** ** Settings, messages, tables *)

Record SettingInfo := { MIN : Q; MAX : option Q; DEFAULT : Q }.

(** [MAX = None] stands for [Infinity]. *)
Definition CONVERTER_SETTINGS_INFO : gmap string SettingInfo :=
  {[ "startTime" := {| MIN := 0; MAX := None; DEFAULT := 0 |};
     "voices" := {| MIN := 6; MAX := Some 11; DEFAULT := 6 |} ]}.

Definition settingDefault (name : string) : Q :=
  from_option DEFAULT 0 (CONVERTER_SETTINGS_INFO !! name).

Definition DEFAULT_SETTINGS : gmap string Q :=
  {[ "startTime" := settingDefault "startTime";
     "voices" := settingDefault "voices" ]}.

Module CONVERTER_WARNINGS.
Definition TYPE_0_FILE : string :=
  "WARNING: The processed file is a type 0 file and may have been converted incorrectly."
  ++ newline.
End CONVERTER_WARNINGS.

Module CONVERTER_ERRORS.
Definition NO_NOTES_FOUND : string :=
  "Error: no notes found in MIDI file in the given time range." ++ newline.
End CONVERTER_ERRORS.

Definition SONG_DATA_ELEMENT_LENGTHS : gmap string nat :=
  {[ "pitchArrays" := 2%nat; "timeArrays" := 4%nat; "chordArrays" := 1%nat ]}.

(** [SONG_DATA_ELEMENT_LENGTHS[arrayName]]; an unknown name reads as
    [undefined], which pads nothing and counts as 0. *)
Definition elementLength (arrayName : string) : nat :=
  default 0%nat (SONG_DATA_ELEMENT_LENGTHS !! arrayName).

(** ** Input *)

Record Note := { time : Q; midi : Z; velocity : Q }.
Record Track := { channel : Z; notes : list Note }.
Record Midi := { duration : Q; tracks : list Track }.

(** ** The chord map *)

Local Open Scope Z_scope.

Definition Chords := list (Time * list Z).

Fixpoint Map_get (m : Chords) (key : Time) : option (list Z) :=
  match m with
  | [] => None
  | (k, v) :: m' => if Z.eqb k key then Some v else Map_get m' key
  end.

(** [set] replaces the value of a present key where it stands and appends a
    new key at the end. *)
Fixpoint Map_set (m : Chords) (key : Time) (value : list Z) : Chords :=
  match m with
  | [] => [(key, value)]
  | (k, v) :: m' =>
      if Z.eqb k key then (k, value) :: m' else (k, v) :: Map_set m' key value
  end.

Definition Array_includes (l : list Z) (x : Z) : bool := existsb (Z.eqb x) l.

(** [Array.prototype.sort]: a stable sort; [x] goes before [y] when
    [compareFn x y <= 0]. *)
Fixpoint sort_insert {A} (compareFn : A -> A -> Q) (x : A) (l : list A) : list A :=
  match l with
  | [] => [x]
  | y :: l' =>
      if Qle_bool (compareFn x y) 0 then x :: l
      else y :: sort_insert compareFn x l'
  end.

Definition Array_sort {A} (compareFn : A -> A -> Q) (l : list A) : list A :=
  foldr (sort_insert compareFn) [] l.

(** The comparison [sort()] uses without an argument: the elements are
    compared as strings. *)
Definition defaultCompare {A} `{ToString A} (x y : A) : Q :=
  match String.compare (toString x) (toString y) with
  | Lt => (-1)%Q
  | Eq => 0%Q
  | Gt => 1%Q
  end.

(** ** readMidiData *)

Module MidiInfo.
Record t := {
  chords : Chords;
  skippedNotes : nat;
  transposedNotes : nat;
  warnings : list string;
  errors : list string }.
End MidiInfo.

Record ReadState := {
  rs_chords : Chords;
  rs_skippedNotes : nat;
  rs_transposedNotes : nat }.

(** Lines 150 to 161: the note [notePitch] arrives at the chord of
    [noteTime].  [chords.has] and [chords.get] are the one lookup
    [Map_get]. *)
Definition insertPitch (settings : gmap string Q) (noteTime : Time) (notePitch : Z)
    (chords : Chords) (skippedNotes : nat) : Chords * nat :=
  match Map_get chords noteTime with
  | Some pitches =>
      if Array_includes pitches notePitch then (chords, skippedNotes)
      else if js_lt (inject_Z (Z.of_nat (length pitches))) (settings !! "voices")
      then (Map_set chords noteTime (pitches ++ [notePitch]), skippedNotes)
      else (chords, (skippedNotes + 1)%nat)
  | None => (Map_set chords noteTime [notePitch], skippedNotes)
  end.

(** The body of the loop over [track.notes]. *)
Definition readNote (settings : gmap string Q) (st : ReadState) (note : Note) : ReadState :=
  if Qeq_bool (velocity note) 0 then st
  else if js_lt (time note) (settings !! "startTime") then st
  else
    let outside :=
      (midi note <? PIANO_RANGE.MIN) || (midi note >? PIANO_RANGE.MAX) in
    let transposedNotes :=
      if outside then (rs_transposedNotes st + 1)%nat else rs_transposedNotes st in
    let notePitch := if outside then transposePitch (midi note) else midi note in
    let notePitch := notePitch - PIANO_RANGE.MIN in
    let noteTime := chordTime (time note) in
    let '(chords, skippedNotes) :=
      insertPitch settings noteTime notePitch (rs_chords st) (rs_skippedNotes st) in
    {| rs_chords := chords;
       rs_skippedNotes := skippedNotes;
       rs_transposedNotes := transposedNotes |}.

(** The body of the loop over [mid.tracks]. *)
Definition readTrack (settings : gmap string Q) (st : ReadState) (track : Track) : ReadState :=
  if channel track =? 9 then st
  else fold_left (readNote settings) (notes track) st.

(** [parseFloat] of a map entry [[time, pitches]]: the entry is turned into
    the string [time,pitch,...], whose longest numeric prefix is the time. *)
Definition parseFloat (entry : Time * list Z) : Q := secs (fst entry).

Definition readMidiData (mid : Midi) (settings : gmap string Q) : MidiInfo.t :=
  let st :=
    fold_left (readTrack settings) (tracks mid)
      {| rs_chords := []; rs_skippedNotes := 0; rs_transposedNotes := 0 |} in
  let empty := Nat.eqb (length (rs_chords st)) 0 in
  let errors := if empty then [CONVERTER_ERRORS.NO_NOTES_FOUND] else [] in
  let chords :=
    if empty then rs_chords st
    else Array_sort
           (fun time1 time2 =>
              roundToPlaces (parseFloat time1 - parseFloat time2) NOTE_PRECISION)
           (rs_chords st) in
  let warnings :=
    if Nat.eqb (length (tracks mid)) 1 then [CONVERTER_WARNINGS.TYPE_0_FILE] else [] in
  {| MidiInfo.chords := chords;
     MidiInfo.skippedNotes := rs_skippedNotes st;
     MidiInfo.transposedNotes := rs_transposedNotes st;
     MidiInfo.warnings := warnings;
     MidiInfo.errors := errors |}.

(** ** convertToArray *)

(** The object with the three song arrays; [A] is [Z] before compression
    and [string] after it. *)
Record OwArrays (A : Type) := {
  pitchArrays : list A;
  timeArrays : list A;
  chordArrays : list A }.
Arguments pitchArrays {A} _.
Arguments timeArrays {A} _.
Arguments chordArrays {A} _.

Definition Object_entries {A} (o : OwArrays A) : list (string * list A) :=
  [("pitchArrays"%string, pitchArrays o);
   ("timeArrays"%string, timeArrays o);
   ("chordArrays"%string, chordArrays o)].

(** [o[arrayName].push(x)] *)
Definition pushTo {A} (o : OwArrays A) (arrayName : string) (x : A) : OwArrays A :=
  if String.eqb arrayName "pitchArrays" then
    {| pitchArrays := pitchArrays o ++ [x];
       timeArrays := timeArrays o; chordArrays := chordArrays o |}
  else if String.eqb arrayName "timeArrays" then
    {| pitchArrays := pitchArrays o;
       timeArrays := timeArrays o ++ [x]; chordArrays := chordArrays o |}
  else if String.eqb arrayName "chordArrays" then
    {| pitchArrays := pitchArrays o;
       timeArrays := timeArrays o; chordArrays := chordArrays o ++ [x] |}
  else o.

Definition emptyArrays {A} : OwArrays A :=
  {| pitchArrays := []; timeArrays := []; chordArrays := [] |}.

Inductive LogEntry :=
| LogNumber (n : Z)
| LogArrays (a : OwArrays string).

Module ArrayInfo.
Record t := { owArrays : OwArrays Z; stopTime : option Time }.
End ArrayInfo.

Record BuildState := {
  bs_owArrays : OwArrays Z;
  bs_pitchArrayElements : Z;
  bs_timeArrayElements : Z;
  bs_chordArrayElements : Z;
  bs_uncompressedSize : Z;
  bs_compressedSize : Z;
  bs_prevTime : Time;
  bs_stopTime : Time }.

(** The [for] loop over [chords.entries()]; the [break] ends the
    recursion. *)
Fixpoint buildLoop (compressionEnabled : bool) (entries : Chords) (st : BuildState)
    : BuildState :=
  match entries with
  | [] => st
  | (currentChordTime, pitches) :: rest =>
      let pitchArrayElements := bs_pitchArrayElements st + Z.of_nat (length pitches) in
      let timeArrayElements := bs_timeArrayElements st + 1 in
      let chordArrayElements := bs_chordArrayElements st + 1 in
      let uncompressedSize :=
        pitchArrayElements + timeArrayElements + chordArrayElements in
      let compressedSize :=
        Math_ceil
          (inject_Z
             (pitchArrayElements * Z.of_nat (elementLength "pitchArrays")
              + timeArrayElements * Z.of_nat (elementLength "timeArrays")
              + chordArrayElements * Z.of_nat (elementLength "chordArrays"))
           / inject_Z (Z.of_nat COMPRESSED_ELEMENT_LENGTH)) in
      if (if compressionEnabled then compressedSize else uncompressedSize)
           >? MAX_TOTAL_ARRAY_ELEMENTS
      then
        {| bs_owArrays := bs_owArrays st;
           bs_pitchArrayElements := pitchArrayElements;
           bs_timeArrayElements := timeArrayElements;
           bs_chordArrayElements := chordArrayElements;
           bs_uncompressedSize := uncompressedSize;
           bs_compressedSize := compressedSize;
           bs_prevTime := bs_prevTime st;
           bs_stopTime := currentChordTime |}
      else
        let owArrays :=
          pushTo (bs_owArrays st) "timeArrays"
            (timeInterval currentChordTime (bs_prevTime st)) in
        let owArrays := pushTo owArrays "chordArrays" (Z.of_nat (length pitches)) in
        let owArrays :=
          fold_left (fun o newPitch => pushTo o "pitchArrays" newPitch)
            (Array_sort defaultCompare pitches) owArrays in
        buildLoop compressionEnabled rest
          {| bs_owArrays := owArrays;
             bs_pitchArrayElements := pitchArrayElements;
             bs_timeArrayElements := timeArrayElements;
             bs_chordArrayElements := chordArrayElements;
             bs_uncompressedSize := uncompressedSize;
             bs_compressedSize := compressedSize;
             bs_prevTime := currentChordTime;
             bs_stopTime := bs_stopTime st |}
  end.

(** [chords.keys().next().value]: the loop reads [prevTime] only when the
    map has a first key, so the value for the empty map is immaterial. *)
Definition firstKey (chords : Chords) : Time :=
  match chords with
  | [] => 0
  | (k, _) :: _ => k
  end.

Definition convertToArray (chords : Chords) (compressionEnabled : bool)
    : ArrayInfo.t * list LogEntry :=
  let st :=
    buildLoop compressionEnabled chords
      {| bs_owArrays := emptyArrays;
         bs_pitchArrayElements := 0;
         bs_timeArrayElements := 0;
         bs_chordArrayElements := 0;
         bs_uncompressedSize := 0;
         bs_compressedSize := 0;
         bs_prevTime := firstKey chords;
         bs_stopTime := 0 |} in
  let stopTime :=
    if bs_stopTime st =? 0 then fst <$> last chords
    else Some (bs_stopTime st) in
  ({| ArrayInfo.owArrays := bs_owArrays st; ArrayInfo.stopTime := stopTime |},
   [LogNumber (bs_compressedSize st)]).

(** ** compressSongArrays *)

(** The inner [for] loop: the slices pushed from index [i] on. *)
Equations? sliceLoop (stringBuffer : string) (i : nat) : list string
  by wf (String.length stringBuffer - i)%nat lt :=
  sliceLoop stringBuffer i with lt_dec i (String.length stringBuffer) := {
    | left _ =>
        slice stringBuffer i (i + COMPRESSED_ELEMENT_LENGTH)
        :: sliceLoop stringBuffer (i + COMPRESSED_ELEMENT_LENGTH);
    | right _ => [] }.
Proof. unfold COMPRESSED_ELEMENT_LENGTH. lia. Qed.

(** The body of the loop over [Object.entries(owArrays)]. *)
Definition compressArray (arrayName : string) (songArray : list Z) : list string :=
  let songArray :=
    map (fun x => padStart (toString x) (elementLength arrayName) "0") songArray in
  let stringBuffer := join songArray "" in
  sliceLoop stringBuffer 0.

Definition compressSongArrays (owArrays : OwArrays Z) : OwArrays string * list LogEntry :=
  let compressedArrays :=
    fold_left
      (fun compressedArrays '(arrayName, songArray) =>
         fold_left (fun o newElement => pushTo o arrayName newElement)
           (compressArray arrayName songArray) compressedArrays)
      (Object_entries owArrays) emptyArrays in
  (compressedArrays, [LogArrays compressedArrays]).

(** ** writeWorkshopRules *)

Local Open Scope string_scope.

(** The [for (j ...)] loop, with [j] counting the iterations still allowed;
    it returns the new [index] and [actions]. *)
Fixpoint appendElements {A} `{ToString A} (j : nat) (songArray : list A)
    (index : nat) (actions : string) : nat * string :=
  match j with
  | O => (index, actions)
  | S j' =>
      let actions := actions ++ ", " ++ interpolate (songArray !! index) in
      let index := (index + 1)%nat in
      if (length songArray <=? index)%nat then (index, actions)
      else appendElements j' songArray index actions
  end.

Definition inspect {A} (a : A) : {b : A | a = b} := exist _ a eq_refl.

(** The number of iterations of the inner loop,
    [j = 0 .. MAX_OW_ARRAY_SIZE - 2]. *)
Definition innerIterations : nat := Z.to_nat (MAX_OW_ARRAY_SIZE - 1).

#[local] Opaque innerIterations.

(** The [while (index < songArray.length)] loop: the rules pushed from
    [index] on. *)
Equations? writeLoop {A} `{ToString A} (arrayName : string) (songArray : list A)
    (owArrayIndex : Z) (index : nat) : list string
  by wf (length songArray - index)%nat lt :=
  writeLoop arrayName songArray owArrayIndex index
    with lt_dec index (length songArray) := {
    | right _ => [];
    | left _
        with inspect
               (appendElements innerIterations songArray
                  (index + 1)%nat
                  ("Global." ++ arrayName ++ "[" ++ toString owArrayIndex
                   ++ "] = Array(" ++ interpolate (songArray !! index))) := {
        | exist _ (index', actions) _ =>
            ("rule(" ++ dquote ++ arrayName ++ dquote ++ "){event{Ongoing-Global;}"
             ++ "actions{" ++ actions ++ ");}}" ++ newline)
            :: writeLoop arrayName songArray (owArrayIndex + 1)%Z index' } }.
Proof.
  assert (Hmono : forall j i a, (i <= fst (appendElements j songArray i a))%nat).
  { clear. induction j as [|j IH]; intros i a; simpl; [lia|].
    destruct (length songArray <=? i + 1)%nat; simpl; [lia|].
    specialize (IH (i + 1)%nat (a ++ ", " ++ interpolate (songArray !! i))). lia. }
  match goal with
  | E : appendElements ?j _ ?i ?a = _ |- _ =>
      specialize (Hmono j i a); rewrite E in Hmono; simpl in Hmono
  end.
  lia.
Qed.

#[local] Transparent innerIterations.

Definition writeWorkshopRules {A} `{ToString A} (owArrays : OwArrays A)
    (maxVoices : option Q) : string :=
  let rules :=
    ["rule(" ++ dquote ++ "Max amount of bots required" ++ dquote
     ++ "){event{Ongoing-Global;}"
     ++ "actions{Global.maxBots = " ++ interpolate maxVoices
     ++ ";Global.maxArraySize = " ++ toString MAX_OW_ARRAY_SIZE ++ ";" ++ newline
     ++ "    Global.compressedElementSize = "
     ++ toString (Z.of_nat COMPRESSED_ELEMENT_LENGTH) ++ ";}}" ++ newline] in
  let rules :=
    fold_left
      (fun rules '(arrayName, songArray) =>
         (rules ++ writeLoop arrayName songArray 0%Z 0%nat)%list)
      (Object_entries owArrays) rules in
  join rules "".

(** ** convertMidi *)

Module Result.
Record t := {
  rules : string;
  skippedNotes : nat;
  transposedNotes : nat;
  duration : Q;
  stopTime : option Time;
  warnings : list string;
  errors : list string }.
End Result.

(** Lines 86 to 88: the settings the conversion goes on with. *)
Definition effectiveSettings (settings : gmap string Q) : gmap string Q :=
  if bool_decide (size settings <> size CONVERTER_SETTINGS_INFO)
  then DEFAULT_SETTINGS else settings.

Definition convertMidi (mid : Midi) (settings : gmap string Q)
    (compressionEnabled : bool) : Result.t * list LogEntry :=
  let settings := effectiveSettings settings in
  let midiInfo := readMidiData mid settings in
  let '(rules, stopTime, log) :=
    if negb (Nat.eqb (length (MidiInfo.chords midiInfo)) 0) then
      let '(arrayInfo, log1) :=
        convertToArray (MidiInfo.chords midiInfo) compressionEnabled in
      if compressionEnabled then
        let '(owArrays, log2) := compressSongArrays (ArrayInfo.owArrays arrayInfo) in
        (writeWorkshopRules owArrays (settings !! "voices"),
         ArrayInfo.stopTime arrayInfo, (log1 ++ log2)%list)
      else
        (writeWorkshopRules (ArrayInfo.owArrays arrayInfo) (settings !! "voices"),
         ArrayInfo.stopTime arrayInfo, log1)
    else ("", None, []) in
  ({| Result.rules := rules;
      Result.skippedNotes := MidiInfo.skippedNotes midiInfo;
      Result.transposedNotes := MidiInfo.transposedNotes midiInfo;
      Result.duration := duration mid;
      Result.stopTime := stopTime;
      Result.warnings := MidiInfo.warnings midiInfo;
      Result.errors := MidiInfo.errors midiInfo |}, log).

Local Open Scope Z_scope.

(** ** Vocabulary of the statements *)

(** [sum(chordSizes)] *)
Definition sumZ (l : list Z) : Z := fold_right Z.add 0 l.

Fixpoint string_skip (n : nat) (s : string) : string :=
  match n, s with
  | O, _ => s
  | S n', String _ s' => string_skip n' s'
  | S _, EmptyString => EmptyString
  end.

(** Modelled from the spec: the unpacker is not part of the converter (the
    packed arrays are decoded by the workshop script that consumes the
    rules).  Following the specification, a packed stream is decoded by
    concatenating its elements into one digit string, cutting that string
    into consecutive fields of the stream's fixed width, and reading each
    field as a decimal number. *)
Fixpoint splitFields (fuel width : nat) (digits : string) : list string :=
  match fuel with
  | O => []
  | S fuel' =>
      match digits with
      | EmptyString => []
      | String _ _ =>
          substring 0 width digits
          :: splitFields fuel' width (string_skip width digits)
      end
  end.

Definition parseField (field : string) : option Z :=
  Z.of_uint <$> NilEmpty.uint_of_string field.

Definition unpackArray (width : nat) (packed : list string) : option (list Z) :=
  let digits := join packed "" in
  mapM parseField (splitFields (String.length digits) width digits).

(** Field widths as the specification gives them: pitches 2 digits, chord
    sizes 1 digit, delays 4 digits. *)
Definition unpackSongArrays (packed : OwArrays string) : option (OwArrays Z) :=
  pitches ← unpackArray 2 (pitchArrays packed);
  delays ← unpackArray 4 (timeArrays packed);
  chordSizes ← unpackArray 1 (chordArrays packed);
  Some {| pitchArrays := pitches; timeArrays := delays; chordArrays := chordSizes |}.

(** The element fits a decimal field: a non-negative integer of at most
    [bound]. *)
Definition fitsField (bound : Z) (x : Z) : Prop := 0 <= x <= bound.

(** The streams of a chord map that is taken whole: the delays of
    consecutive chords (the first one measured from [prevTime]), the chord
    sizes, and the pitches of each chord in the order [sort()] gives them. *)
Fixpoint delaysFrom (prevTime : Time) (entries : Chords) : list Z :=
  match entries with
  | [] => []
  | (t, _) :: rest => timeInterval t prevTime :: delaysFrom t rest
  end.

Definition chordSizes (entries : Chords) : list Z :=
  map (fun chord => Z.of_nat (length (snd chord))) entries.

Definition sortedPitches (entries : Chords) : list Z :=
  flat_map (fun chord => Array_sort defaultCompare (snd chord)) entries.

(** The size the builder compares with the budget, for [p] pitches, [t]
    delays and [c] chord sizes. *)
Definition sizeEstimate (compressionEnabled : bool) (p t c : Z) : Z :=
  if compressionEnabled then (2 * p + 4 * t + c + 6) / 7 else p + t + c.

Definition fitsFieldb (bound : Z) (x : Z) : bool := (0 <=? x) && (x <=? bound).

(** From the specification: a settings object is valid when every field
    of [CONVERTER_SETTINGS_INFO] is present with a value in that field's
    range. *)
Definition inRange (info : SettingInfo) (v : Q) : Prop :=
  (MIN info <= v)%Q /\ match MAX info with Some m => (v <= m)%Q | None => True end.

Definition validSettings (settings : gmap string Q) : Prop :=
  forall name info,
    CONVERTER_SETTINGS_INFO !! name = Some info ->
    exists v, settings !! name = Some v /\ inRange info v.

(** The pitch [readMidiData] stores for a note: transposed into the range
    of the piano when outside it, then counted from [PIANO_RANGE.MIN]
    (lines 141 to 147). *)
Definition encodedPitch (note : Note) : Z :=
  (if (midi note <? PIANO_RANGE.MIN) || (midi note >? PIANO_RANGE.MAX)
   then transposePitch (midi note) else midi note)
  - PIANO_RANGE.MIN.

(** A chord respects the voice limit [V]: distinct pitches, at most [V]. *)
Definition withinVoices (V : Z) (pitches : list Z) : Prop :=
  NoDup pitches /\ Z.of_nat (length pitches) <= V.

(** The invariant of EncodedStreams. *)
Definition streamsAligned (o : OwArrays Z) : Prop :=
  sumZ (chordArrays o) = Z.of_nat (length (pitchArrays o))
  /\ length (timeArrays o) = length (chordArrays o).

(** One element, padded to [width], is a field of that width which reads
    back as the element. *)
Definition fieldChecks (width : nat) (x : Z) : bool :=
  let field := padStart (toString x) width "0" in
  Nat.eqb (String.length field) width
  && match parseField field with
     | Some y => Z.eqb y x
     | None => false
     end.

(** As long as no chord exists, nothing was counted. *)
Definition untouched (st : ReadState) : Prop :=
  rs_chords st = [] -> rs_skippedNotes st = 0%nat /\ rs_transposedNotes st = 0%nat.

(** The text of one song-data rule, from the printed entries of its array
    literal. *)
Definition renderRule (arrayName : string) (owArrayIndex : Z) (entries : list string)
    : string :=
  ("rule(" ++ dquote ++ arrayName ++ dquote ++ "){event{Ongoing-Global;}"
   ++ "actions{"
   ++ "Global." ++ arrayName ++ "[" ++ toString owArrayIndex ++ "] = Array("
   ++ join entries ", " ++ ");}}" ++ newline)%string.

Fixpoint renderRules {A} `{ToString A} (arrayName : string) (owArrayIndex : Z)
    (declared : list (list (option A))) : list string :=
  match declared with
  | [] => []
  | entries :: declared' =>
      renderRule arrayName owArrayIndex (map interpolate entries)
      :: renderRules arrayName (owArrayIndex + 1) declared'
  end.

#[local] Opaque innerIterations.

(** The entries of the array literals that [writeWorkshopRules] writes for
    one song array, declaration by declaration; [None] is an entry that
    prints as [undefined] (see [writeLoop_declarations]). *)
Equations? declarations {A} (songArray : list A) : list (list (option A))
  by wf (length songArray) lt :=
  declarations [] := [];
  declarations [x] := [[Some x; None]];
  declarations (x :: y :: rest) :=
    map Some (x :: take innerIterations (y :: rest))
    :: declarations (drop innerIterations (y :: rest)).
Proof. rewrite length_drop. simpl length. lia. Qed.

#[local] Transparent innerIterations.

(** [actions] after appending the entries [vs]. *)
Definition withEntries (actions : string) (vs : list string) : string :=
  fold_left (fun acc v => (acc ++ ", " ++ v)%string) vs actions.

(** ** Inputs used in the examples *)

Definition noteAt (ms : Z) (pitch : Z) : Note :=
  {| time := ms # 1000; midi := pitch; velocity := 4 # 5 |}.

(** One note. *)
Definition singleNote : Midi :=
  {| duration := 1; tracks := [ {| channel := 0; notes := [noteAt 0 60] |} ] |}.

(** Two simultaneous notes a semitone apart, MIDI 33 and 34. *)
Definition closeChord : Midi :=
  {| duration := 1;
     tracks := [ {| channel := 0; notes := [noteAt 0 33; noteAt 0 34] |} ] |}.

(** A file without notes. *)
Definition silence : Midi :=
  {| duration := 0; tracks := [ {| channel := 0; notes := [] |} ] |}.

(** Seven simultaneous notes, one of them twice. *)
Definition cluster : Midi :=
  {| duration := 1;
     tracks :=
       [ {| channel := 0;
            notes := [noteAt 0 60; noteAt 0 62; noteAt 0 64; noteAt 0 65;
                      noteAt 0 67; noteAt 0 60; noteAt 0 69; noteAt 0 71] |};
         {| channel := 9; notes := [noteAt 0 40] |} ] |}.

(** [n] consecutive integers. *)
Fixpoint countFrom (start : Z) (n : nat) : list Z :=
  match n with
  | O => []
  | S n' => start :: countFrom (start + 1) n'
  end.

(** Chords one millisecond apart; the first nine have two pitches, MIDI 60
    and 64, the others one, MIDI 60. *)
Definition notesAt (ms : Z) : list Note :=
  if ms <? 9 then [noteAt ms 60; noteAt ms 64] else [noteAt ms 60].

Definition songOf (chords : nat) : Midi :=
  {| duration := 9;
     tracks :=
       [ {| channel := 0; notes := flat_map notesAt (countFrom 0 chords) |};
         {| channel := 1; notes := [] |} ] |}.

(** 8997 such chords: 9006 notes. *)
Definition longSong : Midi := songOf (Z.to_nat 8997).

(** The arrays of the specification's worked example. *)
Definition exampleArrays : OwArrays Z :=
  {| pitchArrays := [36; 40; 43]; timeArrays := [0; 500]; chordArrays := [2; 1] |}.

(** Both keys present, [voices] outside 6..11. *)
Definition outOfRangeSettings : gmap string Q :=
  {[ "startTime" := 0%Q; "voices" := 50%Q ]}.

(** The chord map of [songOf chords]. *)
Definition chordAt (ms : Z) : Time * list Z :=
  (ms, if ms <? 9 then [36; 40] else [36]).

Definition chordsOf (chords : nat) : Chords := map chordAt (countFrom 0 chords).

(** What the array builder makes of [longSong] under the default
    settings, with compression. *)
Definition longSongArrays : ArrayInfo.t * list LogEntry :=
  convertToArray (MidiInfo.chords (readMidiData longSong DEFAULT_SETTINGS)) true.

(** ** Vocabulary of the further properties *)

(** The two tests a note has to pass (lines 133 to 139). *)
Definition keepsNote (settings : gmap string Q) (note : Note) : bool :=
  negb (Qeq_bool (velocity note) 0)
  && negb (js_lt (time note) (settings !! "startTime"%string)).

(** The notes [readMidiData] goes on with, in the order it meets them: the
    notes of the tracks that are not on channel 9 which pass the tests. *)
Definition retainedNotes (settings : gmap string Q) (mid : Midi) : list Note :=
  flat_map
    (fun track =>
       if channel track =? 9 then [] else List.filter (keepsNote settings) (notes track))
    (tracks mid).

Definition outsideRange (note : Note) : bool :=
  (midi note <? PIANO_RANGE.MIN) || (midi note >? PIANO_RANGE.MAX).

(** The number of pitches held by all the chords. *)
Definition totalPitches (chords : Chords) : nat :=
  length (flat_map snd chords).

(** The chord key and the stored pitch of a note. *)
Definition noteKey (note : Note) : Time * Z :=
  (chordTime (time note), encodedPitch note).

(** The state of [readMidiData] after the notes [l], read in this order
    from the start. *)
Definition readNotes (settings : gmap string Q) (l : list Note) : ReadState :=
  fold_left (readNote settings) l
    {| rs_chords := []; rs_skippedNotes := 0; rs_transposedNotes := 0 |}.

(** The shape of a stored chord: at least one pitch, no pitch twice, every
    pitch counted from [PIANO_RANGE.MIN] within the range of the piano. *)
Definition chordShape (pitches : list Z) : Prop :=
  pitches <> []
  /\ NoDup pitches
  /\ Forall (fun pitch => 0 <= pitch <= PIANO_RANGE.MAX - PIANO_RANGE.MIN) pitches.

(** The comparison [readMidiData] sorts the entries of the map with. *)
Definition byTime (time1 time2 : Time * list Z) : Q :=
  roundToPlaces (parseFloat time1 - parseFloat time2) NOTE_PRECISION.

(** Every pitch of every chord comes from one of the notes: a note with
    the chord's time and that pitch. *)
Definition fromNotes (l : list Note) (chords : Chords) : Prop :=
  forall chord pitch,
    In chord chords -> In pitch (snd chord) ->
    exists note, In note l /\ noteKey note = (fst chord, pitch).

(** The test [chords.get(noteTime).length < settings.voices] fails. *)
Definition chordFull (settings : gmap string Q) (pitches : list Z) : Prop :=
  js_lt (inject_Z (Z.of_nat (length pitches))) (settings !! "voices"%string) = false.

(** The note has its chord, which holds the note's pitch or is full. *)
Definition placed (settings : gmap string Q) (chords : Chords) (note : Note) : Prop :=
  exists pitches,
    In (chordTime (time note), pitches) chords
    /\ (In (encodedPitch note) pitches \/ chordFull settings pitches).

(** The three streams of the chords [entries], the first delay measured
    from [prevTime]. *)
Definition streamsOf (prevTime : Time) (entries : Chords) : OwArrays Z :=
  {| pitchArrays := sortedPitches entries;
     timeArrays := delaysFrom prevTime entries;
     chordArrays := chordSizes entries |}.

(** The size [convertToArray] computes once it has counted the chords
    [entries]. *)
Definition estimateOf (compressionEnabled : bool) (entries : Chords) : Z :=
  sizeEstimate compressionEnabled
    (Z.of_nat (totalPitches entries))
    (Z.of_nat (length entries)) (Z.of_nat (length entries)).

(** The pitches are written with the same number of digits: all below 10,
    or all from 10 to 99. *)
Definition sameDigits (pitches : list Z) : Prop :=
  Forall (fun pitch => 0 <= pitch <= 9) pitches
  \/ Forall (fun pitch => 10 <= pitch <= 99) pitches.

(** On the [n] integers from [start], the comparison of [sort()] is the
    comparison of the numbers. *)
Definition numericOn (start : Z) (n : nat) : bool :=
  forallb
    (fun x =>
       forallb
         (fun y => Bool.eqb (Qle_bool (defaultCompare x y) 0) (x <=? y))
         (countFrom start n))
    (countFrom start n).

(** * Theorems *)

(** ** transposePitch *)

Lemma raiseLoop_spec pitch :
  (pitch < PIANO_RANGE.MIN ->
     PIANO_RANGE.MIN <= raiseLoop pitch < PIANO_RANGE.MIN + OCTAVE) /\
  (PIANO_RANGE.MIN <= pitch -> raiseLoop pitch = pitch).
Proof.
  funelim (raiseLoop pitch).
  - destruct H as [Hlt Hge]. split; [intros _|lia].
    destruct (Z_lt_dec (pitch + OCTAVE) PIANO_RANGE.MIN).
    + auto.
    + rewrite Hge by lia. unfold OCTAVE in *. lia.
  - split; [lia|reflexivity].
Qed.

Lemma lowerLoop_spec pitch :
  (pitch > PIANO_RANGE.MAX ->
     PIANO_RANGE.MAX - OCTAVE < lowerLoop pitch <= PIANO_RANGE.MAX) /\
  (pitch <= PIANO_RANGE.MAX -> lowerLoop pitch = pitch).
Proof.
  funelim (lowerLoop pitch).
  - destruct H as [Hgt Hle]. split; [intros _|lia].
    destruct (Z_gt_dec (pitch - OCTAVE) PIANO_RANGE.MAX).
    + auto.
    + rewrite Hle by lia. unfold OCTAVE in *. lia.
  - split; [lia|reflexivity].
Qed.

(** ** The representation of chord times *)

Lemma roundToPlaces_chordTime (t : Q) :
  (roundToPlaces t NOTE_PRECISION == secs (chordTime t))%Q.
Proof. reflexivity. Qed.

Lemma Math_round_integer (n : Z) : Math_round (inject_Z n) = n.
Proof.
  unfold Math_round.
  assert (H : (inject_Z n + (1 # 2) == (2 * n + 1) # 2)%Q).
  { unfold Qeq, Qplus, inject_Z. simpl. lia. }
  rewrite H. unfold Qfloor.
  symmetry. apply (Z.div_unique (2 * n + 1) 2 n 1); lia.
Qed.

Lemma roundToPlaces_interval (currentChordTime prevTime : Time) :
  (roundToPlaces ((secs currentChordTime - secs prevTime) * 1000) NOTE_PRECISION
   == inject_Z (currentChordTime - prevTime))%Q.
Proof.
  unfold roundToPlaces.
  assert (H : ((secs currentChordTime - secs prevTime) * 1000 * Math_pow10 NOTE_PRECISION
               == inject_Z ((currentChordTime - prevTime) * 1000))%Q).
  { unfold secs, Math_pow10, NOTE_PRECISION.
    change (inject_Z (10 ^ Z.of_nat 3)) with 1000%Q.
    unfold Z.sub. rewrite inject_Z_mult, inject_Z_plus, inject_Z_opp.
    change (inject_Z 1000) with 1000%Q. field. }
  unfold Math_round. rewrite H. fold (Math_round (inject_Z ((currentChordTime - prevTime) * 1000))).
  rewrite Math_round_integer.
  unfold Math_pow10, NOTE_PRECISION.
  change (inject_Z (10 ^ Z.of_nat 3)) with 1000%Q.
  rewrite inject_Z_mult. change (inject_Z 1000) with 1000%Q. field.
Qed.

(** ** Sorting *)

Lemma sort_insert_Permutation {A} (compareFn : A -> A -> Q) (x : A) (l : list A) :
  sort_insert compareFn x l ≡ₚ x :: l.
Proof.
  induction l as [|y l IH]; simpl; [reflexivity|].
  destruct (Qle_bool (compareFn x y) 0); [reflexivity|].
  rewrite IH. apply Permutation_swap.
Qed.

Lemma Array_sort_Permutation {A} (compareFn : A -> A -> Q) (l : list A) :
  Array_sort compareFn l ≡ₚ l.
Proof.
  induction l as [|x l IH]; simpl; [reflexivity|].
  rewrite sort_insert_Permutation, IH. reflexivity.
Qed.

Lemma Array_sort_length {A} (compareFn : A -> A -> Q) (l : list A) :
  length (Array_sort compareFn l) = length l.
Proof. apply Permutation_length, Array_sort_Permutation. Qed.

(** ** The chord aggregator *)

Lemma Array_includes_true (l : list Z) (x : Z) :
  Array_includes l x = true <-> x ∈ l.
Proof.
  unfold Array_includes. rewrite existsb_exists. split.
  - intros (y & Hy & Heq). apply Z.eqb_eq in Heq. subst y.
    apply list_elem_of_In. exact Hy.
  - intros Hx. exists x. split; [apply list_elem_of_In; exact Hx|apply Z.eqb_refl].
Qed.

Lemma js_lt_length (n : nat) (V : Z) :
  js_lt (inject_Z (Z.of_nat n)) (Some (inject_Z V)) = true <-> Z.of_nat n < V.
Proof.
  unfold js_lt. rewrite negb_true_iff, <- not_true_iff_false, Qle_bool_iff, <- Zle_Qle.
  lia.
Qed.

Section ChordValues.
Variable P : list Z -> Prop.

Lemma Map_get_Forall (m : Chords) (key : Time) (v : list Z) :
  Forall (fun chord => P (snd chord)) m -> Map_get m key = Some v -> P v.
Proof.
  induction m as [|[k w] m IH]; simpl; [discriminate|].
  intros Hall Hget. inversion Hall; subst.
  destruct (k =? key); [injection Hget as <-; assumption|auto].
Qed.

Lemma Map_set_Forall (m : Chords) (key : Time) (v : list Z) :
  Forall (fun chord => P (snd chord)) m -> P v ->
  Forall (fun chord => P (snd chord)) (Map_set m key v).
Proof.
  induction m as [|[k w] m IH]; simpl; intros Hall Hv.
  - constructor; [exact Hv|constructor].
  - inversion Hall; subst.
    destruct (k =? key); constructor; auto.
Qed.
End ChordValues.

(** A note that passes the filters goes to [insertPitch]. *)
Lemma readNote_retained (settings : gmap string Q) (st : ReadState) (note : Note) :
  Qeq_bool (velocity note) 0 = false ->
  js_lt (time note) (settings !! "startTime"%string) = false ->
  rs_chords (readNote settings st note)
  = fst (insertPitch settings (chordTime (time note)) (encodedPitch note)
           (rs_chords st) (rs_skippedNotes st))
  /\ rs_skippedNotes (readNote settings st note)
     = snd (insertPitch settings (chordTime (time note)) (encodedPitch note)
              (rs_chords st) (rs_skippedNotes st)).
Proof.
  intros Hvel Hstart. unfold readNote, encodedPitch. rewrite Hvel, Hstart.
  destruct (insertPitch _ _ _ _ _). split; reflexivity.
Qed.

Section VoiceCap.
Variable settings : gmap string Q.
Variable V : Z.
Hypothesis V_pos : 1 <= V.
Hypothesis V_voices : settings !! "voices"%string = Some (inject_Z V).

Lemma insertPitch_withinVoices noteTime notePitch chords skippedNotes :
  Forall (fun chord => withinVoices V (snd chord)) chords ->
  Forall (fun chord => withinVoices V (snd chord))
    (fst (insertPitch settings noteTime notePitch chords skippedNotes)).
Proof.
  intros Hall. unfold insertPitch.
  destruct (Map_get chords noteTime) as [pitches|] eqn:Hget.
  - destruct (Array_includes pitches notePitch) eqn:Hinc; [exact Hall|].
    rewrite V_voices.
    destruct (js_lt _ _) eqn:Hlt; [|exact Hall].
    apply js_lt_length in Hlt. simpl.
    apply Map_set_Forall; [exact Hall|].
    destruct (Map_get_Forall (withinVoices V) _ _ _ Hall Hget) as [Hnd Hlen].
    split.
    + apply NoDup_app. split; [exact Hnd|]. split; [|apply NoDup_singleton].
      intros x Hx Hx'. apply list_elem_of_singleton in Hx'. subst x.
      apply Array_includes_true in Hx. congruence.
    + rewrite length_app. simpl. lia.
  - simpl. apply Map_set_Forall; [exact Hall|].
    split; [apply NoDup_singleton|simpl; lia].
Qed.

Lemma readNote_withinVoices st note :
  Forall (fun chord => withinVoices V (snd chord)) (rs_chords st) ->
  Forall (fun chord => withinVoices V (snd chord)) (rs_chords (readNote settings st note)).
Proof.
  intros Hall. unfold readNote.
  destruct (Qeq_bool _ _); [exact Hall|].
  destruct (js_lt (time note) _); [exact Hall|].
  match goal with
  | |- context [insertPitch ?s ?t ?p ?c ?k] =>
      pose proof (insertPitch_withinVoices t p c k Hall) as Hins;
      destruct (insertPitch s t p c k)
  end.
  exact Hins.
Qed.

Lemma readTrack_withinVoices track st :
  Forall (fun chord => withinVoices V (snd chord)) (rs_chords st) ->
  Forall (fun chord => withinVoices V (snd chord)) (rs_chords (readTrack settings st track)).
Proof.
  unfold readTrack. destruct (channel track =? 9); [auto|].
  generalize (notes track). intros l. revert st.
  induction l as [|n l IH]; simpl; intros st Hall; [exact Hall|].
  apply IH, readNote_withinVoices, Hall.
Qed.

Lemma readMidiData_withinVoices mid :
  Forall (fun chord => withinVoices V (snd chord))
    (MidiInfo.chords (readMidiData mid settings)).
Proof.
  unfold readMidiData. simpl.
  set (init := {| rs_chords := []; rs_skippedNotes := 0; rs_transposedNotes := 0 |}).
  assert (Hall : Forall (fun chord => withinVoices V (snd chord)) (rs_chords init))
    by constructor.
  generalize dependent init. generalize (tracks mid). intros l.
  induction l as [|t l IH]; simpl; intros init Hall.
  - destruct (Nat.eqb _ _); [exact Hall|].
    rewrite Array_sort_Permutation. exact Hall.
  - apply IH, readTrack_withinVoices, Hall.
Qed.

Lemma insertPitch_full noteTime notePitch chords skippedNotes pitches :
  Map_get chords noteTime = Some pitches ->
  notePitch ∉ pitches ->
  Z.of_nat (length pitches) = V ->
  insertPitch settings noteTime notePitch chords skippedNotes
  = (chords, (skippedNotes + 1)%nat).
Proof.
  intros Hget Hnew Hlen. unfold insertPitch. rewrite Hget.
  destruct (Array_includes pitches notePitch) eqn:Hinc.
  - apply Array_includes_true in Hinc. contradiction.
  - rewrite V_voices.
    destruct (js_lt _ _) eqn:Hlt; [|reflexivity].
    apply js_lt_length in Hlt. lia.
Qed.

Lemma insertPitch_duplicate noteTime notePitch chords skippedNotes pitches :
  Map_get chords noteTime = Some pitches ->
  notePitch ∈ pitches ->
  insertPitch settings noteTime notePitch chords skippedNotes
  = (chords, skippedNotes).
Proof.
  intros Hget Hdup. unfold insertPitch. rewrite Hget.
  apply Array_includes_true in Hdup. rewrite Hdup. reflexivity.
Qed.
End VoiceCap.

(** ** The array builder *)

Lemma pushTo_pitchArrays {A} (o : OwArrays A) (x : A) :
  pushTo o "pitchArrays" x
  = {| pitchArrays := pitchArrays o ++ [x];
       timeArrays := timeArrays o; chordArrays := chordArrays o |}.
Proof. reflexivity. Qed.

Lemma pushTo_timeArrays {A} (o : OwArrays A) (x : A) :
  pushTo o "timeArrays" x
  = {| pitchArrays := pitchArrays o;
       timeArrays := timeArrays o ++ [x]; chordArrays := chordArrays o |}.
Proof. reflexivity. Qed.

Lemma pushTo_chordArrays {A} (o : OwArrays A) (x : A) :
  pushTo o "chordArrays" x
  = {| pitchArrays := pitchArrays o;
       timeArrays := timeArrays o; chordArrays := chordArrays o ++ [x] |}.
Proof. reflexivity. Qed.

Lemma pushAll_pitchArrays {A} (l : list A) (o : OwArrays A) :
  fold_left (fun o x => pushTo o "pitchArrays" x) l o
  = {| pitchArrays := pitchArrays o ++ l;
       timeArrays := timeArrays o; chordArrays := chordArrays o |}.
Proof.
  revert o. induction l as [|x l IH]; intros o; simpl fold_left.
  - destruct o; simpl. rewrite app_nil_r. reflexivity.
  - rewrite IH, pushTo_pitchArrays. simpl. rewrite <- app_assoc. reflexivity.
Qed.

Lemma pushAll_timeArrays {A} (l : list A) (o : OwArrays A) :
  fold_left (fun o x => pushTo o "timeArrays" x) l o
  = {| pitchArrays := pitchArrays o;
       timeArrays := timeArrays o ++ l; chordArrays := chordArrays o |}.
Proof.
  revert o. induction l as [|x l IH]; intros o; simpl fold_left.
  - destruct o; simpl. rewrite app_nil_r. reflexivity.
  - rewrite IH, pushTo_timeArrays. simpl. rewrite <- app_assoc. reflexivity.
Qed.

Lemma pushAll_chordArrays {A} (l : list A) (o : OwArrays A) :
  fold_left (fun o x => pushTo o "chordArrays" x) l o
  = {| pitchArrays := pitchArrays o;
       timeArrays := timeArrays o; chordArrays := chordArrays o ++ l |}.
Proof.
  revert o. induction l as [|x l IH]; intros o; simpl fold_left.
  - destruct o; simpl. rewrite app_nil_r. reflexivity.
  - rewrite IH, pushTo_chordArrays. simpl. rewrite <- app_assoc. reflexivity.
Qed.

Lemma sumZ_app (l1 l2 : list Z) : sumZ (l1 ++ l2) = sumZ l1 + sumZ l2.
Proof. induction l1 as [|x l1 IH]; simpl; lia. Qed.

Lemma buildLoop_streamsAligned compressionEnabled entries st :
  streamsAligned (bs_owArrays st) ->
  streamsAligned (bs_owArrays (buildLoop compressionEnabled entries st)).
Proof.
  revert st. induction entries as [|[currentChordTime pitches] rest IH];
    intros st Hinv; simpl; [exact Hinv|].
  destruct (_ >? MAX_TOTAL_ARRAY_ELEMENTS); simpl; [exact Hinv|].
  apply IH. simpl.
  rewrite pushAll_pitchArrays, pushTo_chordArrays, pushTo_timeArrays.
  destruct Hinv as [Hsum Hlen]. split; simpl.
  - rewrite sumZ_app, length_app, Array_sort_length. simpl. lia.
  - rewrite !length_app, Hlen. reflexivity.
Qed.

(** ** The digit packer *)

Local Open Scope string_scope.

Lemma append_String (c : ascii) (s t : string) :
  String c s ++ t = String c (s ++ t).
Proof. reflexivity. Qed.

Lemma append_empty_l (t : string) : "" ++ t = t.
Proof. reflexivity. Qed.

Lemma append_empty_r (s : string) : s ++ "" = s.
Proof.
  induction s as [|c s IH]; [reflexivity|].
  rewrite append_String, IH. reflexivity.
Qed.

Lemma length_append (a b : string) :
  String.length (a ++ b) = (String.length a + String.length b)%nat.
Proof.
  induction a as [|c a IH]; [reflexivity|].
  rewrite append_String. simpl. rewrite IH. reflexivity.
Qed.

Lemma join_cons (x : string) (l : list string) :
  join (x :: l) "" = x ++ join l "".
Proof.
  unfold join. destruct l as [|y l]; simpl.
  - rewrite append_empty_r. reflexivity.
  - rewrite append_empty_l. reflexivity.
Qed.

Lemma string_skip_empty (n : nat) : string_skip n "" = "".
Proof. destruct n; reflexivity. Qed.

Lemma string_skip_all (n : nat) (s : string) :
  (String.length s <= n)%nat -> string_skip n s = "".
Proof.
  revert n. induction s as [|c s IH]; intros n Hn; [apply string_skip_empty|].
  destruct n as [|n]; simpl in *; [lia|]. apply IH. lia.
Qed.

Lemma substring_skip (s : string) (i n : nat) :
  substring i n s ++ string_skip (i + n) s = string_skip i s.
Proof.
  revert i n. induction s as [|c s IH]; intros i n.
  - rewrite !string_skip_empty. destruct i, n; reflexivity.
  - destruct i as [|i].
    + destruct n as [|n]; simpl; [reflexivity|].
      rewrite append_String. f_equal. apply (IH 0%nat n).
    + simpl. apply IH.
Qed.

Lemma substring_prefix (f rest : string) :
  substring 0 (String.length f) (f ++ rest) = f.
Proof.
  induction f as [|c f IH].
  - rewrite append_empty_l. destruct rest; reflexivity.
  - rewrite append_String. simpl. rewrite IH. reflexivity.
Qed.

Lemma string_skip_prefix (f rest : string) :
  string_skip (String.length f) (f ++ rest) = rest.
Proof.
  induction f as [|c f IH]; [reflexivity|].
  rewrite append_String. simpl. exact IH.
Qed.

(** Joining the slices gives the buffer back. *)
Lemma sliceLoop_join (stringBuffer : string) (i : nat) :
  join (sliceLoop stringBuffer i) "" = string_skip i stringBuffer.
Proof.
  funelim (sliceLoop stringBuffer i).
  - rewrite join_cons, H. unfold slice.
    replace (i + COMPRESSED_ELEMENT_LENGTH - i)%nat with COMPRESSED_ELEMENT_LENGTH by lia.
    apply substring_skip.
  - symmetry. apply string_skip_all. lia.
Qed.

(** Cutting a concatenation of fields of one width gives the fields
    back. *)
Lemma splitFields_join (width : nat) (fields : list string) (fuel : nat) :
  (0 < width)%nat ->
  Forall (fun f => String.length f = width) fields ->
  (length fields <= fuel)%nat ->
  splitFields fuel width (join fields "") = fields.
Proof.
  intros Hw Hall. revert fuel.
  induction Hall as [|f fields Hf Hall IH]; intros fuel Hfuel.
  - destruct fuel; reflexivity.
  - rewrite join_cons. destruct fuel as [|fuel]; simpl in Hfuel; [lia|].
    simpl. destruct (f ++ join fields "") eqn:Heq.
    + apply (f_equal String.length) in Heq. rewrite length_append in Heq.
      simpl in Heq. lia.
    + rewrite <- Heq, <- Hf, substring_prefix, string_skip_prefix, Hf.
      f_equal. apply IH. lia.
Qed.

Lemma join_length (width : nat) (fields : list string) :
  Forall (fun f => String.length f = width) fields ->
  String.length (join fields "") = (width * length fields)%nat.
Proof.
  induction 1 as [|f fields Hf Hall IH]; [simpl; lia|].
  rewrite join_cons, length_append, IH, Hf. simpl. lia.
Qed.

Lemma fieldChecks_correct (width : nat) (x : Z) :
  fieldChecks width x = true ->
  String.length (padStart (toString x) width "0") = width
  /\ parseField (padStart (toString x) width "0") = Some x.
Proof.
  unfold fieldChecks. intros H. apply andb_true_iff in H as [H1 H2].
  apply Nat.eqb_eq in H1. split; [exact H1|].
  destruct (parseField _) as [y|]; [|discriminate].
  apply Z.eqb_eq in H2. subst. reflexivity.
Qed.

Lemma fieldChecks_upto (width : nat) (bound : Z) :
  forallb (fieldChecks width) (map Z.of_nat (seq 0 (Z.to_nat (bound + 1)))) = true ->
  forall x, fitsField bound x -> fieldChecks width x = true.
Proof.
  intros Hall x [Hx0 Hxb].
  rewrite forallb_forall in Hall. apply Hall.
  apply in_map_iff. exists (Z.to_nat x). split; [lia|].
  apply in_seq. lia.
Qed.

Lemma pitch_field x : fitsField 99 x -> fieldChecks 2 x = true.
Proof. apply fieldChecks_upto. vm_compute. reflexivity. Qed.

Lemma chordSize_field x : fitsField 9 x -> fieldChecks 1 x = true.
Proof. apply fieldChecks_upto. vm_compute. reflexivity. Qed.

Lemma delay_field x : fitsField 9999 x -> fieldChecks 4 x = true.
Proof. apply fieldChecks_upto. vm_compute. reflexivity. Qed.

Lemma compressSongArrays_fields (owArrays : OwArrays Z) :
  fst (compressSongArrays owArrays)
  = {| pitchArrays := compressArray "pitchArrays" (pitchArrays owArrays);
       timeArrays := compressArray "timeArrays" (timeArrays owArrays);
       chordArrays := compressArray "chordArrays" (chordArrays owArrays) |}.
Proof.
  unfold compressSongArrays, Object_entries. cbn [fst fold_left].
  rewrite pushAll_pitchArrays, pushAll_timeArrays, pushAll_chordArrays.
  reflexivity.
Qed.

(** Unpacking with the width the packer used gives the array back. *)
Lemma unpackArray_compressArray (arrayName : string) (bound : Z) (songArray : list Z) :
  (0 < elementLength arrayName)%nat ->
  (forall x, fitsField bound x -> fieldChecks (elementLength arrayName) x = true) ->
  Forall (fitsField bound) songArray ->
  unpackArray (elementLength arrayName) (compressArray arrayName songArray)
  = Some songArray.
Proof.
  intros Hw Hchecks Hfits.
  set (width := elementLength arrayName) in *.
  set (fields := map (fun x => padStart (toString x) width "0") songArray).
  assert (Hlen : Forall (fun f => String.length f = width) fields).
  { subst fields. apply Forall_map. eapply Forall_impl; [exact Hfits|].
    intros x Hx. simpl. apply fieldChecks_correct, Hchecks, Hx. }
  unfold unpackArray, compressArray. fold width. fold fields.
  rewrite sliceLoop_join. simpl string_skip.
  rewrite splitFields_join; [|exact Hw|exact Hlen|].
  - subst fields. apply mapM_fmap_Forall_Some.
    eapply Forall_impl; [exact Hfits|].
    intros x Hx. simpl. apply fieldChecks_correct, Hchecks, Hx.
  - rewrite (join_length width) by exact Hlen. nia.
Qed.

(** The number of packed elements. *)
Lemma sliceLoop_length (stringBuffer : string) (i : nat) :
  length (sliceLoop stringBuffer i)
  = ((String.length stringBuffer - i + 6) / 7)%nat.
Proof.
  funelim (sliceLoop stringBuffer i).
  - simpl length. rewrite H. unfold COMPRESSED_ELEMENT_LENGTH.
    destruct (le_lt_dec (i + 7) (String.length stringBuffer)) as [Hle|Hgt].
    + replace (String.length stringBuffer - i + 6)%nat
        with (String.length stringBuffer - (i + 7) + 6 + 1 * 7)%nat by lia.
      rewrite Nat.div_add by lia. lia.
    + replace (String.length stringBuffer - (i + 7))%nat with 0%nat by lia.
      change ((0 + 6) / 7)%nat with 0%nat.
      apply (Nat.div_unique _ 7 1 (String.length stringBuffer - i - 1)); lia.
  - replace (String.length stringBuffer - i)%nat with 0%nat by lia. reflexivity.
Qed.

Lemma compressArray_length (arrayName : string) (songArray : list Z) :
  forallb (fieldChecks (elementLength arrayName)) songArray = true ->
  length (compressArray arrayName songArray)
  = ((elementLength arrayName * length songArray + 6) / 7)%nat.
Proof.
  intros Hall. unfold compressArray.
  rewrite sliceLoop_length, (join_length (elementLength arrayName)).
  - rewrite length_map, Nat.sub_0_r. reflexivity.
  - apply Forall_map. apply Forall_forall. intros x Hx.
    rewrite forallb_forall in Hall.
    apply fieldChecks_correct, Hall, list_elem_of_In, Hx.
Qed.

(** ** The path without chords *)

Lemma Map_set_nonempty (m : Chords) (key : Time) (v : list Z) : Map_set m key v <> [].
Proof. destruct m as [|[k w] m]; simpl; [|destruct (k =? key)%Z]; discriminate. Qed.

Lemma insertPitch_nonempty settings noteTime notePitch chords skippedNotes :
  fst (insertPitch settings noteTime notePitch chords skippedNotes) <> [].
Proof.
  unfold insertPitch.
  destruct (Map_get chords noteTime) as [pitches|] eqn:Hget.
  - assert (Hne : chords <> []) by (intros ->; discriminate).
    destruct (Array_includes _ _); [exact Hne|].
    destruct (js_lt _ _); [apply Map_set_nonempty|exact Hne].
  - apply Map_set_nonempty.
Qed.

Lemma readNote_untouched settings st note :
  untouched st -> untouched (readNote settings st note).
Proof.
  intros Hst. unfold readNote.
  destruct (Qeq_bool _ _); [exact Hst|].
  destruct (js_lt (time note) _); [exact Hst|].
  match goal with
  | |- context [insertPitch ?s ?t ?p ?c ?k] =>
      pose proof (insertPitch_nonempty s t p c k) as Hne;
      destruct (insertPitch s t p c k)
  end.
  intros Hnil. simpl in *. contradiction.
Qed.

Lemma readTrack_untouched settings st track :
  untouched st -> untouched (readTrack settings st track).
Proof.
  unfold readTrack. destruct (channel track =? 9)%Z; [auto|].
  generalize (notes track). intros l. revert st.
  induction l as [|n l IH]; simpl; intros st Hst; [exact Hst|].
  apply IH, readNote_untouched, Hst.
Qed.

Lemma readTracks_untouched settings l st :
  untouched st -> untouched (fold_left (readTrack settings) l st).
Proof.
  revert st. induction l as [|t l IH]; simpl; intros st Hst; [exact Hst|].
  apply IH, readTrack_untouched, Hst.
Qed.

Lemma readMidiData_no_chords mid settings :
  MidiInfo.chords (readMidiData mid settings) = [] ->
  MidiInfo.skippedNotes (readMidiData mid settings) = 0%nat
  /\ MidiInfo.transposedNotes (readMidiData mid settings) = 0%nat
  /\ MidiInfo.errors (readMidiData mid settings) = [CONVERTER_ERRORS.NO_NOTES_FOUND].
Proof.
  unfold readMidiData. simpl.
  set (st := fold_left (readTrack settings) (tracks mid) _).
  assert (Hst : untouched st).
  { apply readTracks_untouched. intros _. split; reflexivity. }
  intros Hnil.
  assert (Hchords : rs_chords st = []).
  { destruct (Nat.eqb (length (rs_chords st)) 0); [exact Hnil|].
    apply Permutation_nil_r. rewrite <- Hnil.
    symmetry. apply Array_sort_Permutation. }
  destruct (Hst Hchords) as [Hs Ht].
  rewrite Hchords. simpl. auto.
Qed.

(** A file whose tracks hold no notes forms no chord. *)
Lemma readMidiData_without_notes mid settings :
  Forall (fun track => notes track = []) (tracks mid) ->
  MidiInfo.chords (readMidiData mid settings) = [].
Proof.
  intros Hall. unfold readMidiData. simpl.
  assert (Hfold : forall st, rs_chords st = [] ->
            rs_chords (fold_left (readTrack settings) (tracks mid) st) = []).
  { induction Hall as [|t l Ht Hall IH]; simpl; intros st Hst; [exact Hst|].
    apply IH. unfold readTrack. rewrite Ht. destruct (channel t =? 9)%Z; exact Hst. }
  rewrite Hfold by reflexivity. reflexivity.
Qed.

(** ** Settings *)

Lemma size_CONVERTER_SETTINGS_INFO : size CONVERTER_SETTINGS_INFO = 2%nat.
Proof. reflexivity. Qed.

Lemma effectiveSettings_other_size (settings : gmap string Q) :
  size settings <> 2%nat -> effectiveSettings settings = DEFAULT_SETTINGS.
Proof.
  intros Hsize. unfold effectiveSettings.
  rewrite size_CONVERTER_SETTINGS_INFO, bool_decide_true by exact Hsize.
  reflexivity.
Qed.

Lemma effectiveSettings_two_keys (settings : gmap string Q) :
  size settings = 2%nat -> effectiveSettings settings = settings.
Proof.
  intros Hsize. unfold effectiveSettings.
  rewrite size_CONVERTER_SETTINGS_INFO, bool_decide_false by (intros H; apply H, Hsize).
  reflexivity.
Qed.

Lemma effectiveSettings_idempotent (settings : gmap string Q) :
  effectiveSettings (effectiveSettings settings) = effectiveSettings settings.
Proof.
  destruct (decide (size settings = 2%nat)) as [H|H].
  - rewrite (effectiveSettings_two_keys settings) by exact H.
    apply effectiveSettings_two_keys, H.
  - rewrite (effectiveSettings_other_size settings) by exact H.
    apply effectiveSettings_two_keys. reflexivity.
Qed.

(** A settings object that lacks one of the two known keys, and has no
    other key, has fewer than two keys. *)
Lemma partial_settings_size (settings : gmap string Q) :
  dom settings ⊆ ({[ "startTime"; "voices" ]} : gset string) ->
  settings !! "startTime" = None \/ settings !! "voices" = None ->
  size settings <> 2%nat.
Proof.
  intros Hdom Hmiss.
  assert (Hle : (size (dom settings) <= 1)%nat).
  { destruct Hmiss as [Hm|Hm]; apply not_elem_of_dom in Hm.
    - transitivity (size ({[ "voices" ]} : gset string)).
      + apply subseteq_size. intros k Hk. specialize (Hdom k Hk).
        apply elem_of_union in Hdom as [Hd|Hd]; [|exact Hd].
        apply elem_of_singleton in Hd. subst k. contradiction.
      + rewrite size_singleton. lia.
    - transitivity (size ({[ "startTime" ]} : gset string)).
      + apply subseteq_size. intros k Hk. specialize (Hdom k Hk).
        apply elem_of_union in Hdom as [Hd|Hd]; [exact Hd|].
        apply elem_of_singleton in Hd. subst k. contradiction.
      + rewrite size_singleton. lia. }
  rewrite size_dom in Hle. lia.
Qed.

Lemma convertMidi_no_chords mid settings compressionEnabled :
  MidiInfo.chords (readMidiData mid (effectiveSettings settings)) = [] ->
  convertMidi mid settings compressionEnabled
  = ({| Result.rules := "";
        Result.skippedNotes := 0;
        Result.transposedNotes := 0;
        Result.duration := duration mid;
        Result.stopTime := None;
        Result.warnings :=
          if Nat.eqb (length (tracks mid)) 1
          then [CONVERTER_WARNINGS.TYPE_0_FILE] else [];
        Result.errors := [CONVERTER_ERRORS.NO_NOTES_FOUND] |}, []).
Proof.
  intros Hnil.
  destruct (readMidiData_no_chords _ _ Hnil) as (Hs & Ht & He).
  unfold convertMidi. rewrite Hnil, Hs, Ht, He. reflexivity.
Qed.

(** ** A song that is taken whole *)

Local Open Scope list_scope.
Local Open Scope Z_scope.

Lemma compressedSize_formula (p t c : Z) :
  Math_ceil
    (inject_Z
       (p * Z.of_nat (elementLength "pitchArrays")
        + t * Z.of_nat (elementLength "timeArrays")
        + c * Z.of_nat (elementLength "chordArrays"))
     / inject_Z (Z.of_nat COMPRESSED_ELEMENT_LENGTH))
  = sizeEstimate true p t c.
Proof.
  change (Z.of_nat (elementLength "pitchArrays")) with 2.
  change (Z.of_nat (elementLength "timeArrays")) with 4.
  change (Z.of_nat (elementLength "chordArrays")) with 1.
  change (Z.of_nat COMPRESSED_ELEMENT_LENGTH) with 7.
  unfold Math_ceil, Qceiling, sizeEstimate.
  set (a := p * 2 + t * 4 + c * 1).
  assert (H : (- (inject_Z a / inject_Z 7) == inject_Z (- a) / inject_Z 7)%Q).
  { rewrite inject_Z_opp. field. }
  rewrite (Qfloor_comp _ _ H), <- Zdiv_Qdiv.
  replace (2 * p + 4 * t + c + 6) with (a + 6) by (subst a; lia).
  generalize a. clear. intros a.
  pose proof (Z.div_mod (a + 6) 7 ltac:(lia)) as Hd.
  pose proof (Z.mod_pos_bound (a + 6) 7 ltac:(lia)) as Hm.
  assert (Hq : - ((a + 6) / 7) = - a / 7).
  { apply (Z.div_unique (- a) 7 _ (6 - (a + 6) mod 7)); lia. }
  rewrite <- Hq. lia.
Qed.

Lemma sizeEstimate_mono compressionEnabled p t c p' t' c' :
  p <= p' -> t <= t' -> c <= c' ->
  sizeEstimate compressionEnabled p t c <= sizeEstimate compressionEnabled p' t' c'.
Proof.
  intros Hp Ht Hc. unfold sizeEstimate. destruct compressionEnabled; [|lia].
  apply Z.div_le_mono; lia.
Qed.

(** When the estimate for all the chords is within the budget, the loop
    takes every chord. *)
Lemma buildLoop_all compressionEnabled entries st :
  sizeEstimate compressionEnabled
    (bs_pitchArrayElements st + Z.of_nat (length (sortedPitches entries)))
    (bs_timeArrayElements st + Z.of_nat (length entries))
    (bs_chordArrayElements st + Z.of_nat (length entries))
  <= MAX_TOTAL_ARRAY_ELEMENTS ->
  bs_owArrays (buildLoop compressionEnabled entries st)
  = {| pitchArrays := pitchArrays (bs_owArrays st) ++ sortedPitches entries;
       timeArrays := timeArrays (bs_owArrays st) ++ delaysFrom (bs_prevTime st) entries;
       chordArrays := chordArrays (bs_owArrays st) ++ chordSizes entries |}
  /\ bs_stopTime (buildLoop compressionEnabled entries st) = bs_stopTime st
  /\ (entries <> [] ->
      bs_compressedSize (buildLoop compressionEnabled entries st)
      = sizeEstimate true
          (bs_pitchArrayElements st + Z.of_nat (length (sortedPitches entries)))
          (bs_timeArrayElements st + Z.of_nat (length entries))
          (bs_chordArrayElements st + Z.of_nat (length entries))).
Proof.
  revert st. induction entries as [|[currentChordTime pitches] rest IH]; intros st Hfits.
  - simpl. rewrite !app_nil_r. destruct (bs_owArrays st). repeat split; congruence.
  - assert (Hlen : Z.of_nat (length (sortedPitches ((currentChordTime, pitches) :: rest)))
                   = Z.of_nat (length pitches) + Z.of_nat (length (sortedPitches rest))).
    { unfold sortedPitches. simpl flat_map.
      rewrite length_app, Array_sort_length. lia. }
    rewrite Hlen in *. clear Hlen.
    cbn [buildLoop]. rewrite compressedSize_formula.
    set (p := bs_pitchArrayElements st + Z.of_nat (length pitches)) in *.
    set (t := bs_timeArrayElements st + 1) in *.
    set (c := bs_chordArrayElements st + 1) in *.
    assert (Hsame : (if compressionEnabled then sizeEstimate true p t c else p + t + c)
                    = sizeEstimate compressionEnabled p t c)
      by (destruct compressionEnabled; reflexivity).
    rewrite Hsame. clear Hsame.
    assert (Hstep : sizeEstimate compressionEnabled p t c <= MAX_TOTAL_ARRAY_ELEMENTS).
    { etransitivity; [|exact Hfits].
      apply sizeEstimate_mono; subst p t c; simpl length; lia. }
    destruct (sizeEstimate compressionEnabled p t c >? MAX_TOTAL_ARRAY_ELEMENTS) eqn:Hgt;
      [apply Z.gtb_lt in Hgt; lia|].
    match goal with
    | |- context [buildLoop _ rest ?s] => specialize (IH s)
    end.
    cbn [bs_owArrays bs_pitchArrayElements bs_timeArrayElements bs_chordArrayElements
         bs_prevTime bs_stopTime bs_compressedSize] in IH.
    destruct IH as (Harr & Hstop & Hsize).
    { subst p t c. simpl length in Hfits.
      replace (bs_pitchArrayElements st + Z.of_nat (length pitches)
               + Z.of_nat (length (sortedPitches rest)))
        with (bs_pitchArrayElements st
              + (Z.of_nat (length pitches) + Z.of_nat (length (sortedPitches rest))))
        by lia.
      replace (bs_timeArrayElements st + 1 + Z.of_nat (length rest))
        with (bs_timeArrayElements st + Z.of_nat (S (length rest))) by lia.
      replace (bs_chordArrayElements st + 1 + Z.of_nat (length rest))
        with (bs_chordArrayElements st + Z.of_nat (S (length rest))) by lia.
      exact Hfits. }
    split; [|split].
    + rewrite Harr, pushAll_pitchArrays, pushTo_chordArrays, pushTo_timeArrays.
      cbn [pitchArrays timeArrays chordArrays].
      unfold sortedPitches, chordSizes. simpl flat_map. simpl map. simpl delaysFrom.
      rewrite <- !app_assoc. reflexivity.
    + exact Hstop.
    + intros _. destruct rest as [|next rest'].
      * simpl. subst p t c. f_equal; lia.
      * rewrite Hsize by discriminate. subst p t c. simpl length.
        f_equal; lia.
Qed.

Lemma convertToArray_all compressionEnabled chords :
  chords <> [] ->
  sizeEstimate compressionEnabled
    (Z.of_nat (length (sortedPitches chords)))
    (Z.of_nat (length chords)) (Z.of_nat (length chords))
  <= MAX_TOTAL_ARRAY_ELEMENTS ->
  convertToArray chords compressionEnabled
  = ({| ArrayInfo.owArrays :=
          {| pitchArrays := sortedPitches chords;
             timeArrays := delaysFrom (firstKey chords) chords;
             chordArrays := chordSizes chords |};
        ArrayInfo.stopTime := fst <$> last chords |},
     [LogNumber
        (sizeEstimate true
           (Z.of_nat (length (sortedPitches chords)))
           (Z.of_nat (length chords)) (Z.of_nat (length chords)))]).
Proof.
  intros Hne Hfits. unfold convertToArray.
  match goal with
  | |- context [buildLoop _ _ ?s] => destruct (buildLoop_all compressionEnabled chords s) as (Harr & Hstop & Hsize)
  end.
  { exact Hfits. }
  rewrite Harr, Hstop, (Hsize Hne). reflexivity.
Qed.

(** The comparison function of the sort in [readMidiData] orders the
    entries by their keys. *)
Lemma roundToPlaces_difference (a b : Time) :
  (roundToPlaces (secs a - secs b) NOTE_PRECISION == secs (a - b)%Z)%Q.
Proof.
  unfold roundToPlaces.
  assert (H : ((secs a - secs b) * Math_pow10 NOTE_PRECISION == inject_Z (a - b)%Z)%Q).
  { unfold secs, Math_pow10, NOTE_PRECISION.
    change (inject_Z (10 ^ Z.of_nat 3)) with 1000%Q.
    unfold Z.sub. rewrite inject_Z_plus, inject_Z_opp. field. }
  unfold Math_round. rewrite H. fold (Math_round (inject_Z (a - b))).
  rewrite Math_round_integer. reflexivity.
Qed.

Lemma chordCompare_le (e1 e2 : Time * list Z) :
  Qle_bool (roundToPlaces (parseFloat e1 - parseFloat e2) NOTE_PRECISION) 0
  = (fst e1 <=? fst e2).
Proof.
  unfold parseFloat. rewrite roundToPlaces_difference.
  unfold secs, Qle_bool, Qdiv, Qmult, Qinv, inject_Z. simpl.
  destruct (Z.leb_spec ((fst e1 - fst e2) * 1 * 1) 0), (Z.leb_spec (fst e1) (fst e2));
    try reflexivity; lia.
Qed.

Lemma Array_sort_ascending (l : Chords) :
  Sorted (fun e1 e2 => fst e1 <= fst e2) l ->
  Array_sort
    (fun time1 time2 => roundToPlaces (parseFloat time1 - parseFloat time2) NOTE_PRECISION)
    l = l.
Proof.
  induction 1 as [|x l Hsorted IH Hhd]; [reflexivity|].
  change (Array_sort ?f (x :: l)) with (sort_insert f x (Array_sort f l)).
  rewrite IH. destruct Hhd as [|y l' Hxy]; [reflexivity|].
  cbn [sort_insert]. rewrite chordCompare_le. apply Z.leb_le in Hxy.
  match goal with
  | |- (if ?b then _ else _) = _ => replace b with true by (symmetry; exact Hxy)
  end.
  reflexivity.
Qed.

(** A key above all keys of the map is new, and is appended. *)
Lemma Map_get_above (m : Chords) (key : Time) :
  Forall (fun chord => fst chord < key) m -> Map_get m key = None.
Proof.
  induction 1 as [|[k v] m Hk Hall IH]; simpl; [reflexivity|].
  simpl in Hk. destruct (Z.eqb_spec k key); [lia|exact IH].
Qed.

Lemma Map_set_new (m : Chords) (key : Time) (v : list Z) :
  Map_get m key = None -> Map_set m key v = m ++ [(key, v)].
Proof.
  induction m as [|[k w] m IH]; simpl; [reflexivity|].
  destruct (k =? key); [discriminate|]. intros H. rewrite IH by exact H. reflexivity.
Qed.

Lemma Map_get_last (m : Chords) (key : Time) (v : list Z) :
  Map_get m key = None -> Map_get (m ++ [(key, v)]) key = Some v.
Proof.
  induction m as [|[k w] m IH]; simpl.
  - rewrite Z.eqb_refl. reflexivity.
  - destruct (k =? key); [discriminate|exact IH].
Qed.

Lemma Map_set_last (m : Chords) (key : Time) (v v' : list Z) :
  Map_get m key = None -> Map_set (m ++ [(key, v)]) key v' = m ++ [(key, v')].
Proof.
  induction m as [|[k w] m IH]; simpl.
  - rewrite Z.eqb_refl. reflexivity.
  - destruct (k =? key); [discriminate|]. intros H. rewrite IH by exact H. reflexivity.
Qed.

(** The aggregator on [songOf]. *)
Lemma chordTime_ms (ms : Z) : chordTime (ms # 1000) = ms.
Proof.
  unfold chordTime.
  assert (H : ((ms # 1000) * Math_pow10 NOTE_PRECISION == inject_Z ms)%Q).
  { change (Math_pow10 NOTE_PRECISION) with 1000%Q.
    unfold Qeq, Qmult, inject_Z. cbn [Qnum Qden]. lia. }
  unfold Math_round. rewrite H. apply Math_round_integer.
Qed.

Lemma readNote_noteAt (st : ReadState) (ms : Z) (pitch : Z) :
  0 <= ms ->
  PIANO_RANGE.MIN <= pitch <= PIANO_RANGE.MAX ->
  readNote DEFAULT_SETTINGS st (noteAt ms pitch)
  = {| rs_chords :=
         fst (insertPitch DEFAULT_SETTINGS ms (pitch - PIANO_RANGE.MIN)
                (rs_chords st) (rs_skippedNotes st));
       rs_skippedNotes :=
         snd (insertPitch DEFAULT_SETTINGS ms (pitch - PIANO_RANGE.MIN)
                (rs_chords st) (rs_skippedNotes st));
       rs_transposedNotes := rs_transposedNotes st |}.
Proof.
  intros Hms Hrange. unfold readNote, noteAt. cbn [time midi velocity].
  change (Qeq_bool (4 # 5) 0) with false. cbv iota.
  change (DEFAULT_SETTINGS !! "startTime") with (Some 0%Q).
  assert (Hstart : js_lt (ms # 1000) (Some 0%Q) = false).
  { unfold js_lt. apply negb_false_iff, Qle_bool_iff. unfold Qle. simpl. lia. }
  rewrite Hstart.
  assert (Hin : (pitch <? PIANO_RANGE.MIN) || (pitch >? PIANO_RANGE.MAX) = false).
  { apply orb_false_iff. split; [apply Z.ltb_ge|rewrite Z.gtb_ltb; apply Z.ltb_ge]; lia. }
  rewrite Hin, chordTime_ms.
  destruct (insertPitch _ _ _ _ _). reflexivity.
Qed.

Lemma readNotes_notesAt (st : ReadState) (ms : Z) :
  0 <= ms ->
  Forall (fun chord => fst chord < ms) (rs_chords st) ->
  fold_left (readNote DEFAULT_SETTINGS) (notesAt ms) st
  = {| rs_chords := rs_chords st ++ [chordAt ms];
       rs_skippedNotes := rs_skippedNotes st;
       rs_transposedNotes := rs_transposedNotes st |}.
Proof.
  intros Hms Habove. apply Map_get_above in Habove.
  assert (Hfirst : readNote DEFAULT_SETTINGS st (noteAt ms 60)
                   = {| rs_chords := rs_chords st ++ [(ms, [36])];
                        rs_skippedNotes := rs_skippedNotes st;
                        rs_transposedNotes := rs_transposedNotes st |}).
  { rewrite readNote_noteAt by (unfold PIANO_RANGE.MIN, PIANO_RANGE.MAX; lia).
    unfold insertPitch. rewrite Habove. cbn [fst snd].
    rewrite Map_set_new by exact Habove. reflexivity. }
  unfold notesAt, chordAt. destruct (ms <? 9); cbn [fold_left]; rewrite Hfirst.
  - rewrite readNote_noteAt by (unfold PIANO_RANGE.MIN, PIANO_RANGE.MAX; lia).
    cbn [rs_chords rs_skippedNotes rs_transposedNotes].
    unfold insertPitch. rewrite Map_get_last by exact Habove.
    change (Array_includes [36] (64 - PIANO_RANGE.MIN)) with false. cbv iota.
    change (js_lt (inject_Z (Z.of_nat (length [36]))) (DEFAULT_SETTINGS !! "voices"))
      with true.
    cbv iota. cbn [fst snd].
    rewrite Map_set_last by exact Habove. reflexivity.
  - reflexivity.
Qed.

Lemma readNotes_song (n : nat) (a : Z) (st : ReadState) :
  0 <= a ->
  Forall (fun chord => fst chord < a) (rs_chords st) ->
  fold_left (readNote DEFAULT_SETTINGS) (flat_map notesAt (countFrom a n)) st
  = {| rs_chords := rs_chords st ++ map chordAt (countFrom a n);
       rs_skippedNotes := rs_skippedNotes st;
       rs_transposedNotes := rs_transposedNotes st |}.
Proof.
  revert a st. induction n as [|n IH]; intros a st Ha Habove.
  - simpl. rewrite app_nil_r. destruct st; reflexivity.
  - cbn [countFrom flat_map map]. rewrite fold_left_app, readNotes_notesAt by assumption.
    rewrite IH.
    + cbn [rs_chords rs_skippedNotes rs_transposedNotes].
      rewrite <- app_assoc. reflexivity.
    + lia.
    + cbn [rs_chords]. apply Forall_app. split.
      * eapply Forall_impl; [exact Habove|]. intros chord Hc. simpl in *. lia.
      * constructor; [simpl; lia|constructor].
Qed.

Lemma chordsOf_ascending (n : nat) :
  Sorted (fun e1 e2 => fst e1 <= fst e2) (chordsOf n).
Proof.
  unfold chordsOf. generalize 0. induction n as [|n IH]; intros a; simpl.
  - constructor.
  - constructor; [apply IH|]. destruct n; simpl; constructor. simpl. lia.
Qed.

Lemma readMidiData_songOf (n : nat) :
  readMidiData (songOf (S n)) DEFAULT_SETTINGS
  = {| MidiInfo.chords := chordsOf (S n);
       MidiInfo.skippedNotes := 0;
       MidiInfo.transposedNotes := 0;
       MidiInfo.warnings := [];
       MidiInfo.errors := [] |}.
Proof.
  assert (Hst : fold_left (readTrack DEFAULT_SETTINGS) (tracks (songOf (S n)))
                  {| rs_chords := []; rs_skippedNotes := 0; rs_transposedNotes := 0 |}
                = {| rs_chords := chordsOf (S n);
                     rs_skippedNotes := 0; rs_transposedNotes := 0 |}).
  { unfold songOf. cbn [tracks fold_left]. unfold readTrack. cbn [channel notes fold_left].
    change (0 =? 9) with false. change (1 =? 9) with false. cbv iota.
    rewrite (readNotes_song (S n) 0) by (try lia; constructor). reflexivity. }
  assert (Hlen : Nat.eqb (length (chordsOf (S n))) 0 = false) by reflexivity.
  unfold readMidiData. rewrite Hst. cbn [rs_chords rs_skippedNotes rs_transposedNotes].
  rewrite Hlen, Array_sort_ascending by apply chordsOf_ascending.
  reflexivity.
Qed.

(** ** The packed size of [longSong] *)

Lemma fitsFieldb_checks (bound : Z) (width : nat) (l : list Z) :
  (forall x, fitsField bound x -> fieldChecks width x = true) ->
  forallb (fitsFieldb bound) l = true ->
  forallb (fieldChecks width) l = true.
Proof.
  intros Hchecks Hall. rewrite forallb_forall in *. intros x Hx.
  apply Hchecks. specialize (Hall x Hx). unfold fitsFieldb in Hall.
  apply andb_true_iff in Hall as [H0 Hb]. split; [apply Z.leb_le, H0|apply Z.leb_le, Hb].
Qed.

(** The packed element counts, from the raw ones. *)
Lemma packed_counts (arrays : OwArrays Z) :
  forallb (fitsFieldb 99) (pitchArrays arrays) = true ->
  forallb (fitsFieldb 9999) (timeArrays arrays) = true ->
  forallb (fitsFieldb 9) (chordArrays arrays) = true ->
  Z.of_nat (length (pitchArrays (fst (compressSongArrays arrays))))
  = (2 * Z.of_nat (length (pitchArrays arrays)) + 6) / 7
  /\ Z.of_nat (length (timeArrays (fst (compressSongArrays arrays))))
     = (4 * Z.of_nat (length (timeArrays arrays)) + 6) / 7
  /\ Z.of_nat (length (chordArrays (fst (compressSongArrays arrays))))
     = (1 * Z.of_nat (length (chordArrays arrays)) + 6) / 7.
Proof.
  intros Hp Ht Hc.
  apply (fitsFieldb_checks 99 (elementLength "pitchArrays") _ pitch_field) in Hp.
  apply (fitsFieldb_checks 9999 (elementLength "timeArrays") _ delay_field) in Ht.
  apply (fitsFieldb_checks 9 (elementLength "chordArrays") _ chordSize_field) in Hc.
  rewrite compressSongArrays_fields. cbn [pitchArrays timeArrays chordArrays].
  rewrite (compressArray_length _ _ Hp), (compressArray_length _ _ Ht),
    (compressArray_length _ _ Hc).
  rewrite !Nat2Z.inj_div, !Nat2Z.inj_add, !Nat2Z.inj_mul.
  repeat split; reflexivity.
Qed.

Lemma delaysFrom_length (prevTime : Time) (entries : Chords) :
  length (delaysFrom prevTime entries) = length entries.
Proof.
  revert prevTime. induction entries as [|[t ps] rest IH]; intros prevTime; simpl;
    [reflexivity|]. rewrite IH. reflexivity.
Qed.

Lemma longSong_counts :
  Z.of_nat (length (sortedPitches (chordsOf (Z.to_nat 8997)))) = 9006
  /\ Z.of_nat (length (chordsOf (Z.to_nat 8997))) = 8997.
Proof. split; vm_compute; reflexivity. Qed.

Lemma longSong_fits :
  forallb (fitsFieldb 99) (sortedPitches (chordsOf (Z.to_nat 8997))) = true
  /\ forallb (fitsFieldb 9999)
       (delaysFrom (firstKey (chordsOf (Z.to_nat 8997))) (chordsOf (Z.to_nat 8997)))
     = true
  /\ forallb (fitsFieldb 9) (chordSizes (chordsOf (Z.to_nat 8997))) = true.
Proof. split; [|split]; vm_compute; reflexivity. Qed.

Lemma longSongArrays_eq :
  longSongArrays
  = ({| ArrayInfo.owArrays :=
          {| pitchArrays := sortedPitches (chordsOf (Z.to_nat 8997));
             timeArrays :=
               delaysFrom (firstKey (chordsOf (Z.to_nat 8997))) (chordsOf (Z.to_nat 8997));
             chordArrays := chordSizes (chordsOf (Z.to_nat 8997)) |};
        ArrayInfo.stopTime := fst <$> last (chordsOf (Z.to_nat 8997)) |},
     [LogNumber 9000]).
Proof.
  destruct longSong_counts as [Hp Hc].
  unfold longSongArrays, longSong.
  assert (HN : Z.to_nat 8997 = S (Z.to_nat 8996)) by lia.
  rewrite HN at 1. rewrite readMidiData_songOf. rewrite <- HN.
  cbn [MidiInfo.chords].
  rewrite convertToArray_all.
  - rewrite Hp, Hc. reflexivity.
  - rewrite HN. discriminate.
  - rewrite Hp, Hc. vm_compute. discriminate.
Qed.

(** ** The budget test *)

(** The arrays the builder returns pass the test it applies: their raw
    size without compression, the estimate of their packed size with
    compression. *)
Lemma buildLoop_within_estimate compressionEnabled entries st :
  Z.of_nat (length (pitchArrays (bs_owArrays st))) = bs_pitchArrayElements st ->
  Z.of_nat (length (timeArrays (bs_owArrays st))) = bs_timeArrayElements st ->
  Z.of_nat (length (chordArrays (bs_owArrays st))) = bs_chordArrayElements st ->
  sizeEstimate compressionEnabled (bs_pitchArrayElements st)
    (bs_timeArrayElements st) (bs_chordArrayElements st)
  <= MAX_TOTAL_ARRAY_ELEMENTS ->
  sizeEstimate compressionEnabled
    (Z.of_nat (length (pitchArrays (bs_owArrays (buildLoop compressionEnabled entries st)))))
    (Z.of_nat (length (timeArrays (bs_owArrays (buildLoop compressionEnabled entries st)))))
    (Z.of_nat (length (chordArrays (bs_owArrays (buildLoop compressionEnabled entries st)))))
  <= MAX_TOTAL_ARRAY_ELEMENTS.
Proof.
  revert st. induction entries as [|[currentChordTime pitches] rest IH];
    intros st Hp Ht Hc Hfits.
  - simpl. rewrite Hp, Ht, Hc. exact Hfits.
  - cbn [buildLoop]. rewrite compressedSize_formula.
    set (p := bs_pitchArrayElements st + Z.of_nat (length pitches)) in *.
    set (t := bs_timeArrayElements st + 1) in *.
    set (c := bs_chordArrayElements st + 1) in *.
    assert (Hsame : (if compressionEnabled then sizeEstimate true p t c else p + t + c)
                    = sizeEstimate compressionEnabled p t c)
      by (destruct compressionEnabled; reflexivity).
    rewrite Hsame. clear Hsame.
    destruct (sizeEstimate compressionEnabled p t c >? MAX_TOTAL_ARRAY_ELEMENTS) eqn:Hgt.
    + cbn [bs_owArrays]. rewrite Hp, Ht, Hc. exact Hfits.
    + apply IH; cbn [bs_owArrays bs_pitchArrayElements bs_timeArrayElements
                       bs_chordArrayElements];
        rewrite ?pushAll_pitchArrays, ?pushTo_chordArrays, ?pushTo_timeArrays;
        cbn [pitchArrays timeArrays chordArrays].
      * rewrite length_app, Array_sort_length. subst p. lia.
      * rewrite length_app. simpl length. subst t. lia.
      * rewrite length_app. simpl length. subst c. lia.
      * rewrite Z.gtb_ltb in Hgt. apply Z.ltb_ge in Hgt. exact Hgt.
Qed.

Lemma convertToArray_within_estimate (chords : Chords) (compressionEnabled : bool) :
  sizeEstimate compressionEnabled
    (Z.of_nat (length (pitchArrays
                         (ArrayInfo.owArrays (fst (convertToArray chords compressionEnabled))))))
    (Z.of_nat (length (timeArrays
                         (ArrayInfo.owArrays (fst (convertToArray chords compressionEnabled))))))
    (Z.of_nat (length (chordArrays
                         (ArrayInfo.owArrays (fst (convertToArray chords compressionEnabled))))))
  <= MAX_TOTAL_ARRAY_ELEMENTS.
Proof.
  unfold convertToArray. cbn [fst ArrayInfo.owArrays].
  apply buildLoop_within_estimate; try reflexivity.
  destruct compressionEnabled; vm_compute; discriminate.
Qed.

(** Without compression the emitted arrays hold at most
    [MAX_TOTAL_ARRAY_ELEMENTS] elements. *)
Lemma raw_budget_respected (chords : Chords) :
  Z.of_nat (length (pitchArrays (ArrayInfo.owArrays (fst (convertToArray chords false)))))
  + Z.of_nat (length (timeArrays (ArrayInfo.owArrays (fst (convertToArray chords false)))))
  + Z.of_nat (length (chordArrays (ArrayInfo.owArrays (fst (convertToArray chords false)))))
  <= MAX_TOTAL_ARRAY_ELEMENTS.
Proof. exact (convertToArray_within_estimate chords false). Qed.

(** ** The rule emitter *)

Local Open Scope list_scope.
Local Open Scope Z_scope.

Lemma append_assoc (a b c : string) : ((a ++ b) ++ c = a ++ (b ++ c))%string.
Proof.
  induction a as [|ch a IH]; [reflexivity|].
  rewrite !append_String, IH. reflexivity.
Qed.

Lemma withEntries_join (prefix first : string) (vs : list string) :
  withEntries (prefix ++ first)%string vs = (prefix ++ join (first :: vs) ", ")%string.
Proof.
  revert first. induction vs as [|v vs IH]; intros first.
  - reflexivity.
  - change (withEntries (prefix ++ first)%string (v :: vs))
      with (withEntries ((prefix ++ first) ++ ", " ++ v)%string vs).
    rewrite append_assoc, IH. unfold join. f_equal.
    destruct vs as [|w vs]; simpl; rewrite ?append_assoc; reflexivity.
Qed.

Lemma innerIterations_S : innerIterations = S (Z.to_nat 997).
Proof. reflexivity. Qed.

Lemma drop_cons_inv {A} (l : list A) (i : nat) (x : A) (rest : list A) :
  drop i l = x :: rest ->
  l !! i = Some x /\ drop (i + 1) l = rest /\ length l = (i + 1 + length rest)%nat.
Proof.
  intros Hdrop. split; [|split].
  - rewrite <- (Nat.add_0_r i), <- lookup_drop, Hdrop. reflexivity.
  - rewrite <- drop_drop, Hdrop. reflexivity.
  - apply (f_equal length) in Hdrop. rewrite length_drop in Hdrop. simpl in Hdrop. lia.
Qed.

Lemma drop_nil_inv {A} (l : list A) (i : nat) :
  drop i l = [] -> l !! i = None /\ (length l <= i)%nat.
Proof.
  intros Hdrop. apply (f_equal length) in Hdrop. rewrite length_drop in Hdrop.
  simpl in Hdrop. split; [apply lookup_ge_None_2|]; lia.
Qed.

(** The inner loop appends [undefined] when nothing is left, and the next
    elements, at most [j + 1] of them, otherwise. *)
Lemma appendElements_spec {A} `{ToString A} (j : nat) (songArray : list A)
    (index : nat) (actions : string) :
  appendElements (S j) songArray index actions
  = match drop index songArray with
    | [] => ((index + 1)%nat, withEntries actions ["undefined"%string])
    | x :: rest =>
        ((index + length (take (S j) (x :: rest)))%nat,
         withEntries actions (map toString (take (S j) (x :: rest))))
    end.
Proof.
  revert index actions. induction j as [|j IH]; intros index actions.
  - cbn [appendElements].
    destruct (drop index songArray) as [|x rest] eqn:Hdrop.
    + apply drop_nil_inv in Hdrop as [Hnone Hlen]. rewrite Hnone.
      destruct (Nat.leb_spec (length songArray) (index + 1)); [reflexivity|lia].
    + apply drop_cons_inv in Hdrop as (Hsome & _ & _). rewrite Hsome.
      destruct (length songArray <=? index + 1)%nat; reflexivity.
  - change (appendElements (S (S j)) songArray index actions)
      with (let actions' := (actions ++ ", " ++ interpolate (songArray !! index))%string in
            if (length songArray <=? index + 1)%nat then ((index + 1)%nat, actions')
            else appendElements (S j) songArray (index + 1) actions').
    cbv zeta. rewrite IH. clear IH.
    destruct (drop index songArray) as [|x rest] eqn:Hdrop.
    + apply drop_nil_inv in Hdrop as [Hnone Hlen]. rewrite Hnone.
      destruct (Nat.leb_spec (length songArray) (index + 1)); [reflexivity|lia].
    + apply drop_cons_inv in Hdrop as (Hsome & Hrest & Hlen). rewrite Hsome, Hrest.
      destruct (Nat.leb_spec (length songArray) (index + 1)) as [Hle|Hgt].
      * destruct rest; [reflexivity|simpl in Hlen; lia].
      * destruct rest as [|y rest]; [simpl in Hlen; lia|].
        cbn [take length map]. f_equal. lia.
Qed.

Lemma writeLoop_step {A} `{ToString A} (arrayName : string) (songArray : list A)
    (owArrayIndex : Z) (index : nat) :
  writeLoop arrayName songArray owArrayIndex index
  = if lt_dec index (length songArray) then
      let result :=
        appendElements innerIterations songArray (index + 1)
          ("Global." ++ arrayName ++ "[" ++ toString owArrayIndex
           ++ "] = Array(" ++ interpolate (songArray !! index))%string in
      ("rule(" ++ dquote ++ arrayName ++ dquote ++ "){event{Ongoing-Global;}"
       ++ "actions{" ++ snd result ++ ");}}" ++ newline)%string
      :: writeLoop arrayName songArray (owArrayIndex + 1) (fst result)
    else [].
Proof.
  rewrite writeLoop_equation_1. unfold writeLoop_unfold_clause_1.
  destruct (lt_dec index (length songArray)) as [Hlt|Hge]; [|reflexivity].
  match goal with |- context [inspect ?e] => generalize (inspect e) end.
  intros [[index' actions] Happ]. unfold writeLoop_unfold_clause_1_clause_2.
  cbv beta iota zeta. rewrite Happ. reflexivity.
Qed.

Lemma renderRule_actions (arrayName : string) (owArrayIndex : Z)
    (first : string) (vs : list string) :
  ("rule(" ++ dquote ++ arrayName ++ dquote ++ "){event{Ongoing-Global;}"
   ++ "actions{"
   ++ withEntries
        ("Global." ++ arrayName ++ "[" ++ toString owArrayIndex
         ++ "] = Array(" ++ first) vs
   ++ ");}}" ++ newline)%string
  = renderRule arrayName owArrayIndex (first :: vs).
Proof.
  unfold renderRule.
  replace ("Global." ++ arrayName ++ "[" ++ toString owArrayIndex
           ++ "] = Array(" ++ first)%string
    with (("Global." ++ arrayName ++ "[" ++ toString owArrayIndex
           ++ "] = Array(") ++ first)%string
    by (rewrite !append_assoc; reflexivity).
  rewrite withEntries_join, !append_assoc. reflexivity.
Qed.

(** The rules written for one array are the renderings of its
    [declarations]. *)
Lemma writeLoop_declarations_from {A} `{ToString A} (arrayName : string)
    (songArray : list A) (n : nat) :
  forall (owArrayIndex : Z) (index : nat),
    (length songArray - index <= n)%nat ->
    writeLoop arrayName songArray owArrayIndex index
    = renderRules arrayName owArrayIndex (declarations (drop index songArray)).
Proof.
  induction n as [|n IH]; intros owArrayIndex index Hn.
  - rewrite writeLoop_step.
    destruct (lt_dec index (length songArray)); [lia|].
    rewrite drop_ge by lia. simp declarations. reflexivity.
  - rewrite writeLoop_step.
    destruct (lt_dec index (length songArray)) as [Hlt|Hge].
    + cbv zeta. rewrite innerIterations_S, appendElements_spec, <- innerIterations_S.
      destruct (drop index songArray) as [|x rest] eqn:Hdrop.
      { apply drop_nil_inv in Hdrop. lia. }
      apply drop_cons_inv in Hdrop as (Hsome & Hrest & Hlen).
      rewrite Hsome. cbn [interpolate]. subst rest.
      destruct (drop (index + 1) songArray) as [|y rest] eqn:Hrest.
      * cbn [fst snd]. rewrite renderRule_actions. simp declarations.
        cbn [renderRules map interpolate]. f_equal.
        rewrite writeLoop_step.
        destruct (lt_dec (index + 1 + 1) (length songArray)); [simpl in Hlen; lia|].
        reflexivity.
      * cbn [fst snd]. rewrite renderRule_actions, IH.
        -- simp declarations. cbn [renderRules]. f_equal.
           ++ f_equal. cbn [map]. rewrite map_map. reflexivity.
           ++ f_equal. f_equal.
              rewrite <- drop_drop, Hrest.
              rewrite length_take.
              destruct (Nat.min_spec innerIterations (length (y :: rest)))
                as [[_ ->]|[Hle ->]]; [reflexivity|].
              rewrite !drop_ge by lia. reflexivity.
        -- rewrite length_take. simpl length in *.
           rewrite innerIterations_S. lia.
    + rewrite drop_ge by lia. simp declarations. reflexivity.
Qed.

Lemma writeLoop_declarations {A} `{ToString A} (arrayName : string) (songArray : list A) :
  writeLoop arrayName songArray 0 0
  = renderRules arrayName 0 (declarations songArray).
Proof.
  rewrite (writeLoop_declarations_from arrayName songArray (length songArray)) by lia.
  reflexivity.
Qed.

Lemma innerIterations_value : Z.of_nat innerIterations = MAX_OW_ARRAY_SIZE - 1.
Proof. reflexivity. Qed.

#[local] Opaque innerIterations.

(** The defined entries of the declarations are the elements of the array,
    each once and in order. *)
Lemma declarations_elements {A} (songArray : list A) :
  omap id (concat (declarations songArray)) = songArray.
Proof.
  funelim (declarations songArray); simp declarations; [reflexivity..|].
  change (omap id (map Some (x :: take innerIterations (y :: rest))
                   ++ concat (declarations (drop innerIterations (y :: rest))))
          = x :: y :: rest).
  rewrite omap_app, H.
  assert (Hsome : forall l : list A, omap id (map Some l) = l).
  { induction l as [|z l IHl]; [reflexivity|]. cbn. f_equal. exact IHl. }
  rewrite Hsome. cbn [app]. f_equal. apply take_drop.
Qed.

(** No declaration has more than [MAX_OW_ARRAY_SIZE] entries. *)
Lemma declarations_size {A} (songArray : list A) :
  Forall (fun entries => Z.of_nat (length entries) <= MAX_OW_ARRAY_SIZE)
    (declarations songArray).
Proof.
  funelim (declarations songArray); simp declarations.
  - constructor.
  - constructor; [unfold MAX_OW_ARRAY_SIZE; simpl; lia|constructor].
  - constructor; [|exact H].
    cbn [map length]. rewrite length_map, length_take.
    pose proof innerIterations_value. lia.
Qed.

(** A declaration holds an [undefined] entry exactly when the length of
    the array is 1 modulo [MAX_OW_ARRAY_SIZE]. *)
Lemma declarations_undefined {A} (songArray : list A) :
  None ∈ concat (declarations songArray)
  <-> Z.of_nat (length songArray) mod MAX_OW_ARRAY_SIZE = 1.
Proof.
  funelim (declarations songArray); simp declarations.
  - simpl. split; [intros Hin; inversion Hin|discriminate].
  - simpl. split; [reflexivity|]. intros _. right. left.
  - change (None ∈ map Some (x :: take innerIterations (y :: rest))
                   ++ concat (declarations (drop innerIterations (y :: rest)))
            <-> Z.of_nat (length (x :: y :: rest)) mod MAX_OW_ARRAY_SIZE = 1).
    rewrite elem_of_app, H. clear H.
    assert (Hno : ~ None ∈ map Some (x :: take innerIterations (y :: rest))).
    { intros Hin. apply list_elem_of_fmap in Hin as (z & Hz & _). discriminate. }
    rewrite length_drop. cbn [length].
    pose proof innerIterations_value as Hi. unfold MAX_OW_ARRAY_SIZE in *.
    destruct (le_lt_dec (S (length rest)) innerIterations) as [Hle|Hgt].
    + replace (S (length rest) - innerIterations)%nat with 0%nat by lia.
      pose proof (Z.div_mod (Z.of_nat (S (S (length rest)))) 999 ltac:(lia)) as Hd.
      pose proof (Z.mod_pos_bound (Z.of_nat (S (S (length rest)))) 999 ltac:(lia)) as Hb.
      split; [intros [Hin|Hmod]; [contradiction|discriminate]|lia].
    + replace (Z.of_nat (S (S (length rest))))
        with (Z.of_nat (S (length rest) - innerIterations) + 1 * 999) by lia.
      rewrite Z_mod_plus_full. tauto.
Qed.

(** The rule text, from the declarations of the three arrays. *)
Lemma writeWorkshopRules_declarations {A} `{ToString A} (owArrays : OwArrays A)
    (maxVoices : option Q) :
  exists header : string,
    writeWorkshopRules owArrays maxVoices
    = join
        (header
         :: renderRules "pitchArrays" 0 (declarations (pitchArrays owArrays))
         ++ renderRules "timeArrays" 0 (declarations (timeArrays owArrays))
         ++ renderRules "chordArrays" 0 (declarations (chordArrays owArrays)))
        "".
Proof.
  eexists. unfold writeWorkshopRules, Object_entries. cbn [fold_left].
  rewrite !writeLoop_declarations, <- !app_assoc. reflexivity.
Qed.

#[local] Transparent innerIterations.

(** ** The claims *)

Local Open Scope list_scope.
Local Open Scope Z_scope.

(** C1. Packing and unpacking: for arrays whose pitches are at most 99,
    chord sizes at most 9 and delays at most 9999 (all non-negative
    integers), cutting the concatenated digits of each packed array into
    fields of 2, 1 and 4 digits gives back the pitches, chord sizes and
    delays the packer was given. *)
Theorem pack_unpack_roundtrip (owArrays : OwArrays Z) :
  Forall (fitsField 99) (pitchArrays owArrays) ->
  Forall (fitsField 9) (chordArrays owArrays) ->
  Forall (fitsField 9999) (timeArrays owArrays) ->
  unpackSongArrays (fst (compressSongArrays owArrays)) = Some owArrays.
Proof.
  intros Hp Hc Ht.
  rewrite compressSongArrays_fields. unfold unpackSongArrays. cbn [pitchArrays timeArrays chordArrays].
  pose proof (unpackArray_compressArray "pitchArrays" 99 (pitchArrays owArrays)
                ltac:(vm_compute; lia) pitch_field Hp) as H1.
  pose proof (unpackArray_compressArray "timeArrays" 9999 (timeArrays owArrays)
                ltac:(vm_compute; lia) delay_field Ht) as H2.
  pose proof (unpackArray_compressArray "chordArrays" 9 (chordArrays owArrays)
                ltac:(vm_compute; lia) chordSize_field Hc) as H3.
  change (elementLength "pitchArrays") with 2%nat in H1.
  change (elementLength "timeArrays") with 4%nat in H2.
  change (elementLength "chordArrays") with 1%nat in H3.
  rewrite H1. cbn [mbind option_bind]. rewrite H2. cbn [mbind option_bind].
  rewrite H3. cbn [mbind option_bind]. destruct owArrays; reflexivity.
Qed.

Lemma pack_unpack_roundtrip_example :
  unpackSongArrays (fst (compressSongArrays exampleArrays)) = Some exampleArrays.
Proof.
  apply (pack_unpack_roundtrip exampleArrays);
    repeat constructor; vm_compute; discriminate.
Defined.

(** C2. The budget is overrun on [longSong]: the builder's estimate is 9000,
    so it keeps all 8997 chords, and the packer then produces 2574 + 5142 +
    1286 = 9002 elements, more than [MAX_TOTAL_ARRAY_ELEMENTS] = 9000.  The
    log of [convertMidi] shows the estimate and the packed arrays. *)
Theorem packed_budget_overrun :
  snd (convertMidi longSong ∅ true)
  = [LogNumber 9000;
     LogArrays (fst (compressSongArrays (ArrayInfo.owArrays (fst longSongArrays))))]
  /\ Z.of_nat (length (chordArrays (ArrayInfo.owArrays (fst longSongArrays)))) = 8997
  /\ Z.of_nat
       (length (pitchArrays
                  (fst (compressSongArrays (ArrayInfo.owArrays (fst longSongArrays))))))
     = 2574
  /\ Z.of_nat
       (length (timeArrays
                  (fst (compressSongArrays (ArrayInfo.owArrays (fst longSongArrays))))))
     = 5142
  /\ Z.of_nat
       (length (chordArrays
                  (fst (compressSongArrays (ArrayInfo.owArrays (fst longSongArrays))))))
     = 1286
  /\ 2574 + 5142 + 1286 > MAX_TOTAL_ARRAY_ELEMENTS.
Proof.
  destruct longSong_counts as [Hp Hc].
  destruct longSong_fits as (Hfp & Hft & Hfc).
  split.
  - assert (Hchords : Nat.eqb (length (MidiInfo.chords
                                         (readMidiData longSong DEFAULT_SETTINGS))) 0
                      = false).
    { unfold longSong.
      assert (HN : Z.to_nat 8997 = S (Z.to_nat 8996)) by lia.
      rewrite HN, readMidiData_songOf. reflexivity. }
    unfold convertMidi. change (effectiveSettings ∅) with DEFAULT_SETTINGS.
    cbv zeta. rewrite Hchords. cbn [negb].
    change (convertToArray (MidiInfo.chords (readMidiData longSong DEFAULT_SETTINGS)) true)
      with longSongArrays.
    rewrite longSongArrays_eq. cbv beta iota. cbn [ArrayInfo.owArrays fst].
    unfold compressSongArrays. cbv beta iota zeta. reflexivity.
  - rewrite longSongArrays_eq. cbn [fst snd ArrayInfo.owArrays].
    match goal with
    | |- context [compressSongArrays ?a] =>
        destruct (packed_counts a Hfp Hft Hfc) as (Hpp & Hpt & Hpc)
    end.
    rewrite Hpp, Hpt, Hpc. cbn [pitchArrays timeArrays chordArrays].
    unfold chordSizes. rewrite delaysFrom_length, length_map, Hp, Hc.
    repeat split; reflexivity.
Qed.

(** C3. The pitches of a chord are appended in the order of their decimal
    strings: the chord of [closeChord] holds 9 and 10, and the builder
    appends 10 before 9. *)
Theorem closeChord_pitch_order :
  MidiInfo.chords (readMidiData closeChord DEFAULT_SETTINGS) = [(0, [9; 10])]
  /\ pitchArrays
       (ArrayInfo.owArrays
          (fst (convertToArray
                  (MidiInfo.chords (readMidiData closeChord DEFAULT_SETTINGS)) true)))
     = [10; 9].
Proof. vm_compute. split; reflexivity. Qed.

(** C4. After the array builder, the chord sizes add up to the number of
    pitches and there are as many delays as chord sizes. *)
Theorem convertToArray_streams_aligned (chords : Chords) (compressionEnabled : bool) :
  let owArrays := ArrayInfo.owArrays (fst (convertToArray chords compressionEnabled)) in
  sumZ (chordArrays owArrays) = Z.of_nat (length (pitchArrays owArrays))
  /\ length (timeArrays owArrays) = length (chordArrays owArrays).
Proof.
  unfold convertToArray. cbn [fst ArrayInfo.owArrays].
  apply buildLoop_streamsAligned. split; reflexivity.
Qed.

(** C5. With a voice limit [V] of at least 1 (the settings allow 6 to 11),
    every chord the aggregator returns holds distinct pitches, at most [V]
    of them.  When a note passes the filters and its chord exists, a pitch
    that is new to a chord already holding [V] pitches leaves the chords as
    they are and adds one to the skipped-note counter; a pitch the chord
    already holds leaves chords and counter as they are. *)
Theorem voice_cap (mid : Midi) (settings : gmap string Q) (V : Z) :
  1 <= V ->
  settings !! "voices" = Some (inject_Z V) ->
  Forall (fun chord => NoDup (snd chord) /\ Z.of_nat (length (snd chord)) <= V)
    (MidiInfo.chords (readMidiData mid settings))
  /\ (forall st note pitches,
        Qeq_bool (velocity note) 0 = false ->
        js_lt (time note) (settings !! "startTime") = false ->
        Map_get (rs_chords st) (chordTime (time note)) = Some pitches ->
        (encodedPitch note ∉ pitches -> Z.of_nat (length pitches) = V ->
         rs_chords (readNote settings st note) = rs_chords st
         /\ rs_skippedNotes (readNote settings st note) = (rs_skippedNotes st + 1)%nat)
        /\ (encodedPitch note ∈ pitches ->
            rs_chords (readNote settings st note) = rs_chords st
            /\ rs_skippedNotes (readNote settings st note) = rs_skippedNotes st)).
Proof.
  intros HV Hvoices. split.
  - apply (readMidiData_withinVoices settings V HV Hvoices).
  - intros st note pitches Hvel Hstart Hget.
    destruct (readNote_retained settings st note Hvel Hstart) as [-> ->].
    split.
    + intros Hnew Hlen.
      rewrite (insertPitch_full settings V Hvoices _ _ _ _ _ Hget Hnew Hlen).
      split; reflexivity.
    + intros Hdup.
      rewrite (insertPitch_duplicate settings _ _ _ _ _ Hget Hdup).
      split; reflexivity.
Qed.

Lemma voice_cap_cluster :
  Forall (fun chord => NoDup (snd chord) /\ Z.of_nat (length (snd chord)) <= 6)
    (MidiInfo.chords (readMidiData cluster DEFAULT_SETTINGS)).
Proof.
  apply (voice_cap cluster DEFAULT_SETTINGS 6); [lia|reflexivity].
Defined.

(** The seventh distinct pitch of [cluster] is skipped, the repeated pitch
    is not counted. *)
Example cluster_counts :
  MidiInfo.chords (readMidiData cluster DEFAULT_SETTINGS) = [(0, [36; 38; 40; 41; 43; 45])]
  /\ MidiInfo.skippedNotes (readMidiData cluster DEFAULT_SETTINGS) = 1%nat.
Proof. vm_compute. split; reflexivity. Qed.

(** C6. The declaration of a one-element array holds a second entry,
    [undefined], which is no element of the stream: the rules written for
    [singleNote] without compression. *)
Theorem singleNote_rules :
  ArrayInfo.owArrays
    (fst (convertToArray (MidiInfo.chords (readMidiData singleNote DEFAULT_SETTINGS)) false))
  = {| pitchArrays := [36]; timeArrays := [0]; chordArrays := [1] |}
  /\ Result.rules (fst (convertMidi singleNote ∅ false))
     = ("rule(" ++ dquote ++ "Max amount of bots required" ++ dquote
       ++ "){event{Ongoing-Global;}actions{Global.maxBots = 6;Global.maxArraySize = 999;"
       ++ newline ++ "    Global.compressedElementSize = 7;}}" ++ newline
       ++ "rule(" ++ dquote ++ "pitchArrays" ++ dquote
       ++ "){event{Ongoing-Global;}actions{Global.pitchArrays[0] = Array(36, undefined);}}"
       ++ newline
       ++ "rule(" ++ dquote ++ "timeArrays" ++ dquote
       ++ "){event{Ongoing-Global;}actions{Global.timeArrays[0] = Array(0, undefined);}}"
       ++ newline
       ++ "rule(" ++ dquote ++ "chordArrays" ++ dquote
       ++ "){event{Ongoing-Global;}actions{Global.chordArrays[0] = Array(1, undefined);}}"
       ++ newline)%string.
Proof. vm_compute. split; reflexivity. Qed.

(** C7. When no chord is formed, the conversion returns the empty rule
    text and the "no notes found" error, and neither the array builder nor
    the packer has run (nothing was logged; the emitter, had it run, would
    have written at least the first rule). *)
Theorem no_chords_short_circuit (mid : Midi) (settings : gmap string Q)
    (compressionEnabled : bool) :
  MidiInfo.chords (readMidiData mid (effectiveSettings settings)) = [] ->
  Result.rules (fst (convertMidi mid settings compressionEnabled)) = ""%string
  /\ Result.errors (fst (convertMidi mid settings compressionEnabled))
     = [CONVERTER_ERRORS.NO_NOTES_FOUND]
  /\ snd (convertMidi mid settings compressionEnabled) = [].
Proof.
  intros Hnil. rewrite (convertMidi_no_chords _ _ _ Hnil). repeat split; reflexivity.
Qed.

Lemma no_chords_short_circuit_silence :
  Result.rules (fst (convertMidi silence ∅ true)) = ""%string
  /\ Result.errors (fst (convertMidi silence ∅ true)) = [CONVERTER_ERRORS.NO_NOTES_FOUND]
  /\ snd (convertMidi silence ∅ true) = [].
Proof.
  apply (no_chords_short_circuit silence ∅ true). reflexivity.
Defined.

(** C8. [transposePitch] is a total function on the integers (both loops
    are defined by well-founded recursion, so every call returns); its
    result lies in [[PIANO_RANGE.MIN, PIANO_RANGE.MAX]] = [[24, 88]], and a
    pitch already inside that range is returned unchanged. *)
Theorem transposePitch_range_restoring (pitch : Z) :
  (PIANO_RANGE.MIN <= transposePitch pitch <= PIANO_RANGE.MAX) /\
  (PIANO_RANGE.MIN <= pitch <= PIANO_RANGE.MAX -> transposePitch pitch = pitch) /\
  PIANO_RANGE.MIN = 24 /\ PIANO_RANGE.MAX = 88.
Proof.
  unfold transposePitch.
  destruct (raiseLoop_spec pitch) as [Hr1 Hr2].
  destruct (lowerLoop_spec (raiseLoop pitch)) as [Hl1 Hl2].
  assert (HM : PIANO_RANGE.MIN = 24) by reflexivity.
  assert (HX : PIANO_RANGE.MAX = 88) by reflexivity.
  assert (HO : OCTAVE = 12) by reflexivity.
  repeat split; try assumption.
  - destruct (Z_lt_dec pitch PIANO_RANGE.MIN).
    + rewrite Hl2 by lia. lia.
    + rewrite Hr2 in * by lia.
      destruct (Z_gt_dec pitch PIANO_RANGE.MAX); [lia|].
      rewrite Hl2 by lia. lia.
  - destruct (Z_lt_dec pitch PIANO_RANGE.MIN).
    + rewrite Hl2 by lia. lia.
    + rewrite Hr2 in * by lia.
      destruct (Z_gt_dec pitch PIANO_RANGE.MAX); [lia|].
      rewrite Hl2 by lia. lia.
  - intros [H1 H2]. rewrite Hl2; rewrite Hr2; lia.
Qed.

Lemma transposePitch_examples :
  transposePitch 60 = 60 /\ 24 <= transposePitch 130 <= 88.
Proof.
  split.
  - apply (transposePitch_range_restoring 60). unfold PIANO_RANGE.MIN, PIANO_RANGE.MAX. lia.
  - destruct (transposePitch_range_restoring 130) as [H _]. exact H.
Defined.

(** C9, as the specification states it, fails: [outOfRangeSettings] is not
    valid ([voices] is 50), and the conversion goes on with it, not with
    the default settings. *)
Lemma outOfRangeSettings_used_as_is :
  ~ validSettings outOfRangeSettings
  /\ effectiveSettings outOfRangeSettings = outOfRangeSettings
  /\ effectiveSettings outOfRangeSettings <> DEFAULT_SETTINGS
  /\ effectiveSettings outOfRangeSettings !! "voices" = Some 50%Q.
Proof.
  split; [|split; [|split]].
  - intros Hvalid.
    destruct (Hvalid "voices" {| MIN := 6; MAX := Some 11%Q; DEFAULT := 6 |} eq_refl)
      as (v & Hv & _ & Hmax).
    vm_compute in Hv. assert (Hv' : v = 50%Q) by congruence. subst v.
    vm_compute in Hmax. apply Hmax. reflexivity.
  - reflexivity.
  - intros Heq. apply (f_equal (fun m : gmap string Q => m !! "voices")) in Heq.
    vm_compute in Heq. discriminate.
  - reflexivity.
Qed.

(** C9, amended. The conversion falls back to the default settings exactly
    when the settings object does not have two keys; in particular it does
    so for an object that lacks [startTime] or [voices] and has no other
    key.  An object with two keys is used as it is, whatever its values. *)
Theorem settings_fallback_by_key_count (mid : Midi) (settings : gmap string Q)
    (compressionEnabled : bool) :
  (size settings <> 2%nat ->
   effectiveSettings settings = DEFAULT_SETTINGS
   /\ convertMidi mid settings compressionEnabled
      = convertMidi mid DEFAULT_SETTINGS compressionEnabled)
  /\ (dom settings ⊆ ({[ "startTime"; "voices" ]} : gset string) ->
      settings !! "startTime" = None \/ settings !! "voices" = None ->
      effectiveSettings settings = DEFAULT_SETTINGS)
  /\ (size settings = 2%nat -> effectiveSettings settings = settings).
Proof.
  split; [|split].
  - intros Hsize.
    pose proof (effectiveSettings_other_size settings Hsize) as Heff.
    split; [exact Heff|].
    unfold convertMidi. rewrite Heff.
    rewrite (effectiveSettings_two_keys DEFAULT_SETTINGS) by reflexivity.
    reflexivity.
  - intros Hdom Hmiss.
    apply effectiveSettings_other_size, partial_settings_size; assumption.
  - apply effectiveSettings_two_keys.
Qed.

Lemma settings_fallback_only_voices :
  effectiveSettings {[ "voices" := 7%Q ]} = DEFAULT_SETTINGS.
Proof.
  refine (proj1 (proj1 (settings_fallback_by_key_count silence _ true) _)).
  vm_compute. intros H. discriminate H.
Defined.

(** C10. When no chord is formed, the result has no stop time; the
    counters are 0, the duration is the file's, the warning about a
    single-track file is given as usual and the error list holds the "no
    notes found" message. *)
Theorem no_chords_stopTime_undefined (mid : Midi) (settings : gmap string Q)
    (compressionEnabled : bool) :
  MidiInfo.chords (readMidiData mid (effectiveSettings settings)) = [] ->
  let result := fst (convertMidi mid settings compressionEnabled) in
  Result.stopTime result = None
  /\ Result.skippedNotes result = 0%nat
  /\ Result.transposedNotes result = 0%nat
  /\ Result.duration result = duration mid
  /\ Result.warnings result
     = (if Nat.eqb (length (tracks mid)) 1 then [CONVERTER_WARNINGS.TYPE_0_FILE] else [])
  /\ Result.errors result = [CONVERTER_ERRORS.NO_NOTES_FOUND].
Proof.
  intros Hnil result. subst result.
  rewrite (convertMidi_no_chords _ _ _ Hnil). repeat split; reflexivity.
Qed.

Lemma no_chords_stopTime_undefined_silence :
  Result.stopTime (fst (convertMidi silence ∅ false)) = None.
Proof.
  apply (no_chords_stopTime_undefined silence ∅ false). reflexivity.
Defined.

(** * Further properties *)

Local Open Scope list_scope.
Local Open Scope Z_scope.

(** ** transposePitch *)

Lemma raiseLoop_mod (pitch : Z) : raiseLoop pitch mod OCTAVE = pitch mod OCTAVE.
Proof.
  funelim (raiseLoop pitch); [|reflexivity].
  rewrite H. unfold OCTAVE.
  replace (pitch + 12) with (pitch + 1 * 12) by lia. apply Z_mod_plus_full.
Qed.

Lemma lowerLoop_mod (pitch : Z) : lowerLoop pitch mod OCTAVE = pitch mod OCTAVE.
Proof.
  funelim (lowerLoop pitch); [|reflexivity].
  rewrite H. unfold OCTAVE.
  replace (pitch - 12) with (pitch + (-1) * 12) by lia. apply Z_mod_plus_full.
Qed.

(** X1. [transposePitch] moves a pitch by whole octaves only: the result
    has the pitch class of the input.  A pitch below the range lands in
    its lowest octave, [24, 35]; a pitch above it lands in its highest
    octave, [77, 88]. *)
Theorem transposePitch_octaves (pitch : Z) :
  transposePitch pitch mod OCTAVE = pitch mod OCTAVE
  /\ (pitch < PIANO_RANGE.MIN -> 24 <= transposePitch pitch <= 35)
  /\ (pitch > PIANO_RANGE.MAX -> 77 <= transposePitch pitch <= 88).
Proof.
  unfold transposePitch.
  destruct (raiseLoop_spec pitch) as [Hr1 Hr2].
  destruct (lowerLoop_spec (raiseLoop pitch)) as [Hl1 Hl2].
  assert (HM : PIANO_RANGE.MIN = 24) by reflexivity.
  assert (HX : PIANO_RANGE.MAX = 88) by reflexivity.
  assert (HO : OCTAVE = 12) by reflexivity.
  split; [|split].
  - rewrite lowerLoop_mod. apply raiseLoop_mod.
  - intros Hlow. rewrite Hl2 by lia. lia.
  - intros Hhigh. rewrite Hr2 in * by lia. lia.
Qed.

Lemma transposePitch_octaves_examples :
  24 <= transposePitch 3 <= 35 /\ 77 <= transposePitch 127 <= 88.
Proof.
  split.
  - apply (transposePitch_octaves 3). reflexivity.
  - apply (transposePitch_octaves 127). reflexivity.
Defined.

(** ** roundToPlaces *)

Lemma Math_pow10_pos (n : nat) : (0 < Math_pow10 n)%Q.
Proof.
  unfold Math_pow10. change 0%Q with (inject_Z 0). rewrite <- Zlt_Qlt.
  apply Z.pow_pos_nonneg; lia.
Qed.


(** ** Invariants of the chord map *)

Lemma keepsNote_true (settings : gmap string Q) (note : Note) :
  keepsNote settings note = true
  <-> Qeq_bool (velocity note) 0 = false
      /\ js_lt (time note) (settings !! "startTime"%string) = false.
Proof.
  unfold keepsNote. rewrite andb_true_iff, !negb_true_iff. reflexivity.
Qed.

Lemma readNote_dropped (settings : gmap string Q) (st : ReadState) (note : Note) :
  keepsNote settings note = false -> readNote settings st note = st.
Proof.
  unfold keepsNote, readNote. intros H.
  destruct (Qeq_bool (velocity note) 0); [reflexivity|].
  destruct (js_lt (time note) _); [reflexivity|discriminate].
Qed.

(** A property of the chord map that holds for the empty map, is kept when
    a note that passes the tests arrives, and does not depend on the order
    of the entries, holds for the chords [readMidiData] returns. *)
Lemma readMidiData_invariant (I : Chords -> Prop) (settings : gmap string Q) (mid : Midi) :
  I [] ->
  (forall chords note skippedNotes,
     I chords -> keepsNote settings note = true ->
     I (fst (insertPitch settings (chordTime (time note)) (encodedPitch note)
               chords skippedNotes))) ->
  (forall l l', l ≡ₚ l' -> I l -> I l') ->
  I (MidiInfo.chords (readMidiData mid settings)).
Proof.
  intros Hnil Hstep Hperm.
  assert (Hnote : forall st note, I (rs_chords st) -> I (rs_chords (readNote settings st note))).
  { intros st note Hst. destruct (keepsNote settings note) eqn:Hkeep.
    - apply keepsNote_true in Hkeep as Hk. destruct Hk as [Hvel Hstart].
      destruct (readNote_retained settings st note Hvel Hstart) as [-> _].
      apply Hstep; assumption.
    - rewrite readNote_dropped by exact Hkeep. exact Hst. }
  assert (Hnotes : forall l st, I (rs_chords st) ->
                     I (rs_chords (fold_left (readNote settings) l st))).
  { induction l as [|n l IH]; simpl; intros st Hst; [exact Hst|]. apply IH, Hnote, Hst. }
  assert (Htracks : forall l st, I (rs_chords st) ->
                      I (rs_chords (fold_left (readTrack settings) l st))).
  { induction l as [|t l IH]; simpl; intros st Hst; [exact Hst|].
    apply IH. unfold readTrack. destruct (channel t =? 9); [exact Hst|].
    apply Hnotes, Hst. }
  unfold readMidiData. cbn [MidiInfo.chords].
  match goal with
  | |- context [fold_left (readTrack settings) (tracks mid) ?init] =>
      pose proof (Htracks (tracks mid) init Hnil) as Hfinal
  end.
  destruct (Nat.eqb _ _); [exact Hfinal|].
  eapply Hperm; [|exact Hfinal]. symmetry. apply Array_sort_Permutation.
Qed.

Lemma transposePitch_in_range (pitch : Z) :
  PIANO_RANGE.MIN <= transposePitch pitch <= PIANO_RANGE.MAX.
Proof.
  unfold transposePitch.
  destruct (raiseLoop_spec pitch) as [Hr1 Hr2].
  destruct (lowerLoop_spec (raiseLoop pitch)) as [Hl1 Hl2].
  assert (HM : PIANO_RANGE.MIN = 24) by reflexivity.
  assert (HX : PIANO_RANGE.MAX = 88) by reflexivity.
  assert (HO : OCTAVE = 12) by reflexivity.
  destruct (Z_lt_dec pitch PIANO_RANGE.MIN).
  - rewrite Hl2 by lia. lia.
  - rewrite Hr2 in * by lia.
    destruct (Z_gt_dec pitch PIANO_RANGE.MAX); [lia|]. rewrite Hl2 by lia. lia.
Qed.

Lemma encodedPitch_range (note : Note) :
  0 <= encodedPitch note <= PIANO_RANGE.MAX - PIANO_RANGE.MIN.
Proof.
  unfold encodedPitch.
  destruct ((midi note <? PIANO_RANGE.MIN) || (midi note >? PIANO_RANGE.MAX)) eqn:Hout.
  - pose proof (transposePitch_in_range (midi note)). lia.
  - apply orb_false_iff in Hout as [H1 H2].
    apply Z.ltb_ge in H1. rewrite Z.gtb_ltb in H2. apply Z.ltb_ge in H2. lia.
Qed.

(** What [insertPitch] does to the chords, whatever the branch: nothing,
    or the pitch is added at the end of its chord, or it starts a chord. *)
Lemma insertPitch_cases settings noteTime notePitch chords skippedNotes :
  fst (insertPitch settings noteTime notePitch chords skippedNotes) = chords
  \/ (exists pitches,
        Map_get chords noteTime = Some pitches
        /\ (notePitch ∉ pitches)
        /\ js_lt (inject_Z (Z.of_nat (length pitches))) (settings !! "voices"%string) = true
        /\ fst (insertPitch settings noteTime notePitch chords skippedNotes)
           = Map_set chords noteTime (pitches ++ [notePitch]))
  \/ (Map_get chords noteTime = None
      /\ fst (insertPitch settings noteTime notePitch chords skippedNotes)
         = Map_set chords noteTime [notePitch]).
Proof.
  unfold insertPitch. destruct (Map_get chords noteTime) as [pitches|] eqn:Hget.
  - destruct (Array_includes pitches notePitch) eqn:Hinc; [left; reflexivity|].
    destruct (js_lt _ _) eqn:Hlt; [|left; reflexivity].
    right. left. exists pitches. repeat split; try assumption.
    intros Hin. apply Array_includes_true in Hin. congruence.
  - right. right. split; reflexivity.
Qed.

Lemma Map_set_keys (m : Chords) (key : Time) (v : list Z) :
  map fst (Map_set m key v)
  = match Map_get m key with
    | Some _ => map fst m
    | None => (map fst m ++ [key])%list
    end.
Proof.
  induction m as [|[k w] m IH]; simpl; [reflexivity|].
  destruct (k =? key) eqn:E; simpl; [reflexivity|].
  rewrite IH. destruct (Map_get m key); reflexivity.
Qed.

Lemma Map_get_None_keys (m : Chords) (key : Time) :
  Map_get m key = None -> ~ In key (map fst m).
Proof.
  induction m as [|[k w] m IH]; simpl; [tauto|].
  destruct (Z.eqb_spec k key); [discriminate|]. intros Hget [Heq|Hin]; [lia|].
  exact (IH Hget Hin).
Qed.

Lemma Map_get_Some_In (m : Chords) (key : Time) (v : list Z) :
  Map_get m key = Some v -> In (key, v) m.
Proof.
  induction m as [|[k w] m IH]; simpl; [discriminate|].
  destruct (Z.eqb_spec k key) as [->|Hne].
  - intros [= ->]. left. reflexivity.
  - intros Hget. right. exact (IH Hget).
Qed.

Lemma Map_set_In (m : Chords) (key : Time) (v : list Z) (entry : Time * list Z) :
  In entry (Map_set m key v) -> entry = (key, v) \/ In entry m.
Proof.
  induction m as [|[k w] m IH]; simpl.
  - intros [<-|[]]. left. reflexivity.
  - destruct (Z.eqb_spec k key) as [->|Hne]; simpl.
    + intros [<-|Hin]; [left; reflexivity|right; right; exact Hin].
    + intros [<-|Hin]; [right; left; reflexivity|].
      destruct (IH Hin) as [->|Hin']; [left; reflexivity|right; right; exact Hin'].
Qed.

Lemma distinct_pitches_length (pitches : list Z) :
  NoDup pitches ->
  Forall (fun pitch => 0 <= pitch <= PIANO_RANGE.MAX - PIANO_RANGE.MIN) pitches ->
  (length pitches <= 65)%nat.
Proof.
  intros Hnd Hall.
  replace 65%nat with (length (map Z.of_nat (seq 0 65))) by reflexivity.
  apply NoDup_incl_length; [apply NoDup_ListNoDup; exact Hnd|].
  intros pitch Hin. rewrite List.Forall_forall in Hall. specialize (Hall pitch Hin).
  change (PIANO_RANGE.MAX - PIANO_RANGE.MIN) with 64 in Hall.
  apply in_map_iff. exists (Z.to_nat pitch). split; [lia|apply in_seq; lia].
Qed.

Lemma insertPitch_chordShape settings noteTime notePitch chords skippedNotes :
  0 <= notePitch <= PIANO_RANGE.MAX - PIANO_RANGE.MIN ->
  Forall (fun chord => chordShape (snd chord)) chords ->
  Forall (fun chord => chordShape (snd chord))
    (fst (insertPitch settings noteTime notePitch chords skippedNotes)).
Proof.
  intros Hp Hall.
  destruct (insertPitch_cases settings noteTime notePitch chords skippedNotes)
    as [->|[(pitches & Hget & Hnew & _ & ->)|[_ ->]]].
  - exact Hall.
  - apply (Map_set_Forall chordShape); [exact Hall|].
    destruct (Map_get_Forall chordShape _ _ _ Hall Hget) as (_ & Hnd & Hrange).
    split; [|split].
    + destruct pitches; discriminate.
    + apply NoDup_app. split; [exact Hnd|]. split; [|apply NoDup_singleton].
      intros x Hx Hx'. apply list_elem_of_singleton in Hx'. subst x. exact (Hnew Hx).
    + apply Forall_app. split; [exact Hrange|]. constructor; [exact Hp|constructor].
  - apply (Map_set_Forall chordShape); [exact Hall|].
    split; [discriminate|]. split; [apply NoDup_singleton|].
    constructor; [exact Hp|constructor].
Qed.

Lemma readMidiData_chordShape (mid : Midi) (settings : gmap string Q) :
  Forall (fun chord => chordShape (snd chord))
    (MidiInfo.chords (readMidiData mid settings)).
Proof.
  apply (readMidiData_invariant (Forall (fun chord => chordShape (snd chord)))).
  - constructor.
  - intros chords note skippedNotes Hall _.
    apply insertPitch_chordShape; [apply encodedPitch_range|exact Hall].
  - intros l l' Hperm Hl. rewrite <- Hperm. exact Hl.
Qed.

(** X3. Whatever the notes and the settings, every chord [readMidiData]
    returns holds at least one pitch and no pitch twice, every pitch lies
    between 0 and [PIANO_RANGE.MAX - PIANO_RANGE.MIN] = 64, and so no chord
    holds more than 65 pitches. *)
Theorem readMidiData_chords_shape (mid : Midi) (settings : gmap string Q) :
  Forall
    (fun chord =>
       NoDup (snd chord)
       /\ Forall (fun pitch => 0 <= pitch <= 64) (snd chord)
       /\ (1 <= length (snd chord) <= 65)%nat)
    (MidiInfo.chords (readMidiData mid settings)).
Proof.
  eapply Forall_impl; [apply readMidiData_chordShape|].
  intros [noteTime pitches] (Hne & Hnd & Hrange). cbn [snd] in *.
  split; [exact Hnd|]. split; [exact Hrange|]. split.
  - destruct pitches; [congruence|simpl; lia].
  - apply distinct_pitches_length; assumption.
Qed.

(** ** The order of the chords *)

Lemma byTime_le (e1 e2 : Time * list Z) :
  Qle_bool (byTime e1 e2) 0 = (fst e1 <=? fst e2).
Proof. apply chordCompare_le. Qed.

Lemma sort_insert_byTime (x : Time * list Z) (l : Chords) :
  StronglySorted (fun e1 e2 => fst e1 <= fst e2) l ->
  StronglySorted (fun e1 e2 => fst e1 <= fst e2) (sort_insert byTime x l).
Proof.
  induction 1 as [|y l Hsorted IH Hall]; simpl.
  - constructor; constructor.
  - rewrite byTime_le.
    match goal with |- context [if ?b then _ else _] => destruct b eqn:Hle end;
      [apply Z.leb_le in Hle|apply Z.leb_gt in Hle].
    + constructor; [constructor; assumption|].
      constructor; [exact Hle|].
      eapply Forall_impl; [exact Hall|]. intros z Hz. exact (Z.le_trans _ _ _ Hle Hz).
    + constructor; [exact IH|].
      rewrite sort_insert_Permutation. constructor; [|exact Hall].
      apply Z.lt_le_incl. exact Hle.
Qed.

Lemma Array_sort_byTime (l : Chords) :
  StronglySorted (fun e1 e2 => fst e1 <= fst e2) (Array_sort byTime l).
Proof.
  induction l as [|x l IH]; [constructor|].
  change (Array_sort byTime (x :: l)) with (sort_insert byTime x (Array_sort byTime l)).
  apply sort_insert_byTime, IH.
Qed.

Lemma sorted_keys_strict (l : Chords) :
  StronglySorted (fun e1 e2 => fst e1 <= fst e2) l ->
  NoDup (map fst l) ->
  StronglySorted Z.lt (map fst l).
Proof.
  induction 1 as [|x l Hsorted IH Hall]; simpl; intros Hnd; [constructor|].
  apply NoDup_cons in Hnd as [Hnew Hnd].
  constructor; [exact (IH Hnd)|].
  apply List.Forall_forall. intros key Hin.
  apply in_map_iff in Hin as Hin'. destruct Hin' as (entry & <- & Hentry).
  rewrite List.Forall_forall in Hall. specialize (Hall entry Hentry).
  apply Z.le_neq. split; [exact Hall|].
  intros Heq. apply Hnew, list_elem_of_In, in_map_iff.
  exists entry. split; [symmetry; exact Heq|exact Hentry].
Qed.

Lemma insertPitch_keys settings noteTime notePitch chords skippedNotes :
  map fst (fst (insertPitch settings noteTime notePitch chords skippedNotes))
  = match Map_get chords noteTime with
    | Some _ => map fst chords
    | None => (map fst chords ++ [noteTime])%list
    end.
Proof.
  destruct (insertPitch_cases settings noteTime notePitch chords skippedNotes)
    as [Heq|[(pitches & Hget & _ & _ & ->)|[Hget ->]]].
  - unfold insertPitch in *. destruct (Map_get chords noteTime) as [pitches|] eqn:Hget.
    + rewrite Heq. reflexivity.
    + exfalso. cbn [fst] in Heq. apply (f_equal (map fst)) in Heq.
      rewrite Map_set_keys, Hget in Heq.
      apply (f_equal (@length _)) in Heq. rewrite length_app in Heq. simpl in Heq. lia.
  - rewrite Map_set_keys, Hget. reflexivity.
  - rewrite Map_set_keys, Hget. reflexivity.
Qed.

Lemma readMidiData_keys_NoDup (mid : Midi) (settings : gmap string Q) :
  NoDup (map fst (MidiInfo.chords (readMidiData mid settings))).
Proof.
  apply (readMidiData_invariant (fun chords => NoDup (map fst chords))).
  - constructor.
  - intros chords note skippedNotes Hnd _. rewrite insertPitch_keys.
    destruct (Map_get chords (chordTime (time note))) eqn:Hget; [exact Hnd|].
    apply NoDup_app. split; [exact Hnd|]. split; [|apply NoDup_singleton].
    intros x Hx Hx'. apply list_elem_of_singleton in Hx'. subst x.
    apply (Map_get_None_keys _ _ Hget). apply list_elem_of_In. exact Hx.
  - intros l l' Hperm Hl. rewrite <- (Permutation_map fst Hperm). exact Hl.
Qed.

Lemma readMidiData_sorted (mid : Midi) (settings : gmap string Q) :
  StronglySorted (fun e1 e2 => fst e1 <= fst e2)
    (MidiInfo.chords (readMidiData mid settings)).
Proof.
  unfold readMidiData. cbn [MidiInfo.chords].
  match goal with |- context [Nat.eqb (length ?l) 0] => destruct l as [|c cs] end.
  - constructor.
  - cbn [length Nat.eqb]. apply Array_sort_byTime.
Qed.

Lemma StronglySorted_lookup_lt (l : list Z) (i j : nat) (a b : Z) :
  StronglySorted Z.lt l -> l !! i = Some a -> l !! j = Some b -> (i < j)%nat -> a < b.
Proof.
  intros Hsorted. revert i j.
  induction Hsorted as [|x l Hsorted IH Hall]; intros i j Hi Hj Hij.
  - rewrite lookup_nil in Hi. discriminate.
  - destruct i as [|i], j as [|j]; try lia; cbn [lookup list_lookup] in Hi, Hj.
    + injection Hi as <-. rewrite List.Forall_forall in Hall.
      apply Hall, list_elem_of_In. eapply list_elem_of_lookup_2. exact Hj.
    + apply (IH i j); [exact Hi|exact Hj|lia].
Qed.

Lemma readMidiData_keys_ascending (mid : Midi) (settings : gmap string Q) :
  StronglySorted Z.lt (map fst (MidiInfo.chords (readMidiData mid settings))).
Proof.
  apply sorted_keys_strict; [apply readMidiData_sorted|apply readMidiData_keys_NoDup].
Qed.

(** X4. The chords [readMidiData] returns are in strictly ascending order of
    time, and no time occurs twice: of two chords, the one with the smaller
    time comes first. *)
Theorem readMidiData_ascending (mid : Midi) (settings : gmap string Q) :
  NoDup (map fst (MidiInfo.chords (readMidiData mid settings)))
  /\ forall i j chord chord',
       MidiInfo.chords (readMidiData mid settings) !! i = Some chord ->
       MidiInfo.chords (readMidiData mid settings) !! j = Some chord' ->
       (i < j)%nat -> fst chord < fst chord'.
Proof.
  split; [apply readMidiData_keys_NoDup|].
  pose proof (readMidiData_keys_ascending mid settings) as Hsorted.
  intros i j chord chord' Hi Hj Hij.
  apply (StronglySorted_lookup_lt _ i j (fst chord) (fst chord') Hsorted).
  - rewrite list_lookup_fmap. unfold Chords, Time in *. rewrite Hi. reflexivity.
  - rewrite list_lookup_fmap. unfold Chords, Time in *. rewrite Hj. reflexivity.
  - exact Hij.
Qed.

(** ** The notes [readMidiData] takes into account *)

Lemma readNotes_filter (settings : gmap string Q) (l : list Note) (st : ReadState) :
  fold_left (readNote settings) l st
  = fold_left (readNote settings) (List.filter (keepsNote settings) l) st.
Proof.
  revert st. induction l as [|note l IH]; intros st; simpl; [reflexivity|].
  destruct (keepsNote settings note) eqn:Hkeep; simpl.
  - apply IH.
  - rewrite readNote_dropped by exact Hkeep. apply IH.
Qed.

Lemma readTracks_retained (settings : gmap string Q) (l : list Track) (st : ReadState) :
  fold_left (readTrack settings) l st
  = fold_left (readNote settings)
      (flat_map
         (fun track =>
            if channel track =? 9 then []
            else List.filter (keepsNote settings) (notes track)) l) st.
Proof.
  revert st. induction l as [|track l IH]; intros st; simpl; [reflexivity|].
  rewrite fold_left_app, IH. f_equal.
  unfold readTrack. destruct (channel track =? 9); [reflexivity|].
  apply readNotes_filter.
Qed.

Lemma readMidiData_readNotes (mid : Midi) (settings : gmap string Q) :
  readMidiData mid settings
  = let st := readNotes settings (retainedNotes settings mid) in
    let empty := Nat.eqb (length (rs_chords st)) 0 in
    {| MidiInfo.chords :=
         if empty then rs_chords st
         else Array_sort
                (fun time1 time2 =>
                   roundToPlaces (parseFloat time1 - parseFloat time2) NOTE_PRECISION)
                (rs_chords st);
       MidiInfo.skippedNotes := rs_skippedNotes st;
       MidiInfo.transposedNotes := rs_transposedNotes st;
       MidiInfo.warnings :=
         if Nat.eqb (length (tracks mid)) 1 then [CONVERTER_WARNINGS.TYPE_0_FILE] else [];
       MidiInfo.errors := if empty then [CONVERTER_ERRORS.NO_NOTES_FOUND] else [] |}.
Proof.
  unfold readMidiData, readNotes, retainedNotes.
  rewrite readTracks_retained. reflexivity.
Qed.

Lemma retainedNotes_keepsNote (settings : gmap string Q) (mid : Midi) :
  Forall (fun note => keepsNote settings note = true) (retainedNotes settings mid).
Proof.
  unfold retainedNotes. apply List.Forall_forall. intros note Hin.
  apply in_flat_map in Hin as (track & _ & Hin).
  destruct (channel track =? 9); [destruct Hin|].
  apply filter_In in Hin as [_ Hkeep]. exact Hkeep.
Qed.

(** X5. The result of [readMidiData] depends on the file only through the
    notes that pass the three tests (track not on channel 9, velocity not
    0, time not before [startTime]), in the order of the file: two files
    with the same such notes give the same chords, the same counters and
    the same errors, however the notes are spread over tracks. *)
Theorem readMidiData_retainedNotes (mid1 mid2 : Midi) (settings : gmap string Q) :
  retainedNotes settings mid1 = retainedNotes settings mid2 ->
  MidiInfo.chords (readMidiData mid1 settings) = MidiInfo.chords (readMidiData mid2 settings)
  /\ MidiInfo.skippedNotes (readMidiData mid1 settings)
     = MidiInfo.skippedNotes (readMidiData mid2 settings)
  /\ MidiInfo.transposedNotes (readMidiData mid1 settings)
     = MidiInfo.transposedNotes (readMidiData mid2 settings)
  /\ MidiInfo.errors (readMidiData mid1 settings)
     = MidiInfo.errors (readMidiData mid2 settings).
Proof.
  intros Heq. rewrite !readMidiData_readNotes. cbv zeta.
  cbn [MidiInfo.chords MidiInfo.skippedNotes MidiInfo.transposedNotes MidiInfo.errors].
  rewrite Heq. repeat split; reflexivity.
Qed.

Lemma readMidiData_retainedNotes_cluster :
  MidiInfo.chords (readMidiData cluster DEFAULT_SETTINGS)
  = MidiInfo.chords
      (readMidiData
         {| duration := 1;
            tracks :=
              [ {| channel := 0; notes := [noteAt 0 60; noteAt 0 62; noteAt 0 64] |};
                {| channel := 3;
                   notes := [noteAt 0 65; noteAt 0 67; noteAt 0 60; noteAt 0 69;
                             {| time := 0; midi := 30; velocity := 0 |};
                             noteAt 0 71] |} ] |}
         DEFAULT_SETTINGS).
Proof.
  refine (proj1 (readMidiData_retainedNotes _ _ _ _)). vm_compute. reflexivity.
Defined.

Lemma readNote_transposedNotes (settings : gmap string Q) (st : ReadState) (note : Note) :
  keepsNote settings note = true ->
  rs_transposedNotes (readNote settings st note)
  = (rs_transposedNotes st + if outsideRange note then 1 else 0)%nat.
Proof.
  intros Hkeep. apply keepsNote_true in Hkeep as [Hvel Hstart].
  unfold readNote, outsideRange. rewrite Hvel, Hstart.
  destruct (insertPitch _ _ _ _ _). cbn [rs_transposedNotes].
  destruct (_ || _); lia.
Qed.

Lemma readNotes_transposedNotes (settings : gmap string Q) (l : list Note) (st : ReadState) :
  Forall (fun note => keepsNote settings note = true) l ->
  rs_transposedNotes (fold_left (readNote settings) l st)
  = (rs_transposedNotes st + length (List.filter outsideRange l))%nat.
Proof.
  intros Hall. revert st. induction Hall as [|note l Hkeep Hall IH]; intros st; simpl; [lia|].
  rewrite IH, readNote_transposedNotes by exact Hkeep.
  destruct (outsideRange note); simpl; lia.
Qed.

(** X6. [transposedNotes] is the number of notes outside MIDI 24..88 among
    the notes that pass the three tests; a note dropped later as a
    duplicate or for the voice limit is still counted. *)
Theorem readMidiData_transposedNotes (mid : Midi) (settings : gmap string Q) :
  MidiInfo.transposedNotes (readMidiData mid settings)
  = length (List.filter outsideRange (retainedNotes settings mid)).
Proof.
  rewrite readMidiData_readNotes. cbv zeta. cbn [MidiInfo.transposedNotes].
  unfold readNotes. rewrite readNotes_transposedNotes by apply retainedNotes_keepsNote.
  reflexivity.
Qed.

Lemma readNotes_nonempty (settings : gmap string Q) (l : list Note) (st : ReadState) :
  Forall (fun note => keepsNote settings note = true) l ->
  l <> [] \/ rs_chords st <> [] ->
  rs_chords (fold_left (readNote settings) l st) <> [].
Proof.
  intros Hall. revert st. induction Hall as [|note l Hkeep Hall IH]; intros st Hne; simpl.
  - destruct Hne as [Hne|Hne]; [congruence|exact Hne].
  - apply IH. right. apply keepsNote_true in Hkeep as [Hvel Hstart].
    destruct (readNote_retained settings st note Hvel Hstart) as [-> _].
    apply insertPitch_nonempty.
Qed.

Lemma readMidiData_nothing_retained (mid : Midi) (settings : gmap string Q) :
  retainedNotes settings mid = [] ->
  MidiInfo.errors (readMidiData mid settings) = [CONVERTER_ERRORS.NO_NOTES_FOUND]
  /\ MidiInfo.chords (readMidiData mid settings) = [].
Proof.
  rewrite readMidiData_readNotes. cbv zeta. cbn [MidiInfo.chords MidiInfo.errors].
  intros ->. split; reflexivity.
Qed.

Lemma readMidiData_something_retained (mid : Midi) (settings : gmap string Q) :
  retainedNotes settings mid <> [] ->
  MidiInfo.errors (readMidiData mid settings) = []
  /\ MidiInfo.chords (readMidiData mid settings) <> [].
Proof.
  rewrite readMidiData_readNotes. cbv zeta. cbn [MidiInfo.chords MidiInfo.errors].
  intros Hne.
  assert (Hchords : rs_chords (readNotes settings (retainedNotes settings mid)) <> []).
  { apply readNotes_nonempty; [apply retainedNotes_keepsNote|left; exact Hne]. }
  destruct (rs_chords (readNotes settings (retainedNotes settings mid))) as [|c cs] eqn:Hst;
    [congruence|].
  cbn [length Nat.eqb]. split; [reflexivity|].
  intros Hsort. apply (f_equal length) in Hsort.
  rewrite Array_sort_length in Hsort. discriminate.
Qed.

(** X7. [readMidiData] reports [NO_NOTES_FOUND] exactly when no note passes
    the three tests, and this is the only error it reports; the chord map is
    empty in exactly that case. *)
Theorem readMidiData_errors (mid : Midi) (settings : gmap string Q) :
  (retainedNotes settings mid = []
   -> MidiInfo.errors (readMidiData mid settings) = [CONVERTER_ERRORS.NO_NOTES_FOUND]
      /\ MidiInfo.chords (readMidiData mid settings) = [])
  /\ (retainedNotes settings mid <> []
      -> MidiInfo.errors (readMidiData mid settings) = []
         /\ MidiInfo.chords (readMidiData mid settings) <> []).
Proof.
  split; [apply readMidiData_nothing_retained|apply readMidiData_something_retained].
Qed.

Lemma readMidiData_errors_examples :
  (MidiInfo.errors (readMidiData silence DEFAULT_SETTINGS) = [CONVERTER_ERRORS.NO_NOTES_FOUND]
   /\ MidiInfo.chords (readMidiData silence DEFAULT_SETTINGS) = [])
  /\ (MidiInfo.errors (readMidiData singleNote DEFAULT_SETTINGS) = []
      /\ MidiInfo.chords (readMidiData singleNote DEFAULT_SETTINGS) <> []).
Proof.
  split.
  - apply (proj1 (readMidiData_errors silence DEFAULT_SETTINGS)). reflexivity.
  - apply (proj2 (readMidiData_errors singleNote DEFAULT_SETTINGS)). vm_compute. discriminate.
Defined.

(** ** Where the pitches come from, and where the notes go *)

Lemma fold_left_prefix_ind {A B} (f : A -> B -> A) (I : list B -> A -> Prop)
    (l : list B) (a0 : A) :
  I [] a0 ->
  (forall seen x rest a,
     l = (seen ++ x :: rest)%list -> I seen a -> I (seen ++ [x])%list (f a x)) ->
  I l (fold_left f l a0).
Proof.
  intros H0 Hstep.
  assert (Hgen : forall rest seen a,
            l = (seen ++ rest)%list -> I seen a ->
            I (seen ++ rest)%list (fold_left f rest a)).
  { induction rest as [|x rest IH]; intros seen a Hl Hseen; simpl.
    - rewrite app_nil_r. exact Hseen.
    - replace (seen ++ x :: rest)%list with ((seen ++ [x]) ++ rest)%list
        by (rewrite <- app_assoc; reflexivity).
      apply IH.
      + rewrite <- app_assoc. exact Hl.
      + apply (Hstep seen x rest); assumption. }
  apply (Hgen l [] a0); [reflexivity|exact H0].
Qed.

Lemma Map_get_set_same (m : Chords) (key : Time) (v : list Z) :
  Map_get (Map_set m key v) key = Some v.
Proof.
  induction m as [|[k w] m IH]; simpl.
  - rewrite Z.eqb_refl. reflexivity.
  - destruct (k =? key) eqn:E; simpl; rewrite E; [reflexivity|exact IH].
Qed.

Lemma Map_get_set_other (m : Chords) (key key' : Time) (v : list Z) :
  key' <> key -> Map_get (Map_set m key v) key' = Map_get m key'.
Proof.
  intros Hne. induction m as [|[k w] m IH]; simpl.
  - destruct (Z.eqb_spec key key'); [congruence|reflexivity].
  - destruct (Z.eqb_spec k key) as [->|Hk]; simpl.
    + destruct (Z.eqb_spec key key'); [congruence|reflexivity].
    + rewrite IH. reflexivity.
Qed.

(** The four ways of [insertPitch]: the pitch is in the chord already; it
    is added to the chord; the chord is full; it starts a chord. *)
Lemma insertPitch_spec settings noteTime notePitch chords skippedNotes :
  (exists pitches,
     Map_get chords noteTime = Some pitches /\ In notePitch pitches
     /\ insertPitch settings noteTime notePitch chords skippedNotes
        = (chords, skippedNotes))
  \/ (exists pitches,
        Map_get chords noteTime = Some pitches /\ ~ In notePitch pitches
        /\ ~ chordFull settings pitches
        /\ insertPitch settings noteTime notePitch chords skippedNotes
           = (Map_set chords noteTime (pitches ++ [notePitch]), skippedNotes))
  \/ (exists pitches,
        Map_get chords noteTime = Some pitches /\ ~ In notePitch pitches
        /\ chordFull settings pitches
        /\ insertPitch settings noteTime notePitch chords skippedNotes
           = (chords, (skippedNotes + 1)%nat))
  \/ (Map_get chords noteTime = None
      /\ insertPitch settings noteTime notePitch chords skippedNotes
         = (Map_set chords noteTime [notePitch], skippedNotes)).
Proof.
  unfold insertPitch, chordFull.
  destruct (Map_get chords noteTime) as [pitches|] eqn:Hget.
  - destruct (Array_includes pitches notePitch) eqn:Hinc.
    + left. exists pitches. split; [reflexivity|]. split; [|reflexivity].
      apply list_elem_of_In, Array_includes_true, Hinc.
    + assert (Hnew : ~ In notePitch pitches).
      { intros Hin. apply list_elem_of_In, Array_includes_true in Hin. congruence. }
      destruct (js_lt _ _) eqn:Hlt.
      * right. left. exists pitches. repeat split; try assumption. congruence.
      * right. right. left. exists pitches. repeat split; assumption.
  - right. right. right. split; reflexivity.
Qed.

Lemma chordFull_longer (settings : gmap string Q) (pitches pitches' : list Z) :
  (length pitches <= length pitches')%nat ->
  chordFull settings pitches -> chordFull settings pitches'.
Proof.
  unfold chordFull, js_lt. intros Hlen.
  destruct (settings !! "voices"%string) as [v|]; [|reflexivity].
  rewrite !negb_false_iff, !Qle_bool_iff. intros Hv.
  eapply Qle_trans; [exact Hv|]. rewrite <- Zle_Qle. lia.
Qed.

Lemma readNote_kept (settings : gmap string Q) (st : ReadState) (note : Note) :
  keepsNote settings note = true ->
  rs_chords (readNote settings st note)
  = fst (insertPitch settings (chordTime (time note)) (encodedPitch note)
           (rs_chords st) (rs_skippedNotes st))
  /\ rs_skippedNotes (readNote settings st note)
     = snd (insertPitch settings (chordTime (time note)) (encodedPitch note)
              (rs_chords st) (rs_skippedNotes st)).
Proof.
  intros Hkeep. apply keepsNote_true in Hkeep as [Hvel Hstart].
  apply readNote_retained; assumption.
Qed.

Lemma readNotes_fromNotes (settings : gmap string Q) (l : list Note) :
  Forall (fun note => keepsNote settings note = true) l ->
  fromNotes l (rs_chords (readNotes settings l)).
Proof.
  intros Hkeep. unfold readNotes.
  apply (fold_left_prefix_ind (readNote settings)
           (fun seen st => fromNotes seen (rs_chords st))).
  - intros chord pitch [].
  - intros seen note rest st Hl Hseen.
    assert (Hnote : keepsNote settings note = true).
    { rewrite List.Forall_forall in Hkeep. apply Hkeep. rewrite Hl.
      apply in_or_app. right. left. reflexivity. }
    destruct (readNote_kept settings st note Hnote) as [-> _].
    assert (Hold : fromNotes (seen ++ [note]) (rs_chords st)).
    { intros chord pitch Hchord Hpitch.
      destruct (Hseen chord pitch Hchord Hpitch) as (n & Hn & Hkey).
      exists n. split; [apply in_or_app; left; exact Hn|exact Hkey]. }
    destruct (insertPitch_spec settings (chordTime (time note)) (encodedPitch note)
                (rs_chords st) (rs_skippedNotes st))
      as [(pitches & Hget & _ & ->)|[(pitches & Hget & _ & _ & ->)
         |[(pitches & Hget & _ & _ & ->)|[Hget ->]]]]; cbn [fst]; try exact Hold.
    + intros chord pitch Hchord Hpitch.
      apply Map_set_In in Hchord as [->|Hchord]; [|exact (Hold chord pitch Hchord Hpitch)].
      cbn [fst snd] in *. apply in_app_or in Hpitch as [Hpitch|[<-|[]]].
      * exact (Hold _ pitch (Map_get_Some_In _ _ _ Hget) Hpitch).
      * exists note. split; [apply in_or_app; right; left; reflexivity|reflexivity].
    + intros chord pitch Hchord Hpitch.
      apply Map_set_In in Hchord as [->|Hchord]; [|exact (Hold chord pitch Hchord Hpitch)].
      cbn [fst snd] in *. destruct Hpitch as [<-|[]].
      exists note. split; [apply in_or_app; right; left; reflexivity|reflexivity].
Qed.

(** The same with the lookup of the map, for the state before sorting. *)
Lemma readNotes_placed (settings : gmap string Q) (l : list Note) :
  Forall (fun note => keepsNote settings note = true) l ->
  forall note, In note l ->
    exists pitches,
      Map_get (rs_chords (readNotes settings l)) (chordTime (time note)) = Some pitches
      /\ (In (encodedPitch note) pitches \/ chordFull settings pitches).
Proof.
  intros Hkeep. unfold readNotes.
  apply (fold_left_prefix_ind (readNote settings)
           (fun seen st =>
              forall note, In note seen ->
                exists pitches,
                  Map_get (rs_chords st) (chordTime (time note)) = Some pitches
                  /\ (In (encodedPitch note) pitches \/ chordFull settings pitches))).
  - intros note [].
  - intros seen new rest st Hl Hseen.
    assert (Hnew : keepsNote settings new = true).
    { rewrite List.Forall_forall in Hkeep. apply Hkeep. rewrite Hl.
      apply in_or_app. right. left. reflexivity. }
    destruct (readNote_kept settings st new Hnew) as [-> _].
    intros note Hnote. apply in_app_or in Hnote as [Hnote|[<-|[]]].
    + destruct (Hseen note Hnote) as (pitches & Hget & Hplace).
      destruct (insertPitch_spec settings (chordTime (time new)) (encodedPitch new)
                  (rs_chords st) (rs_skippedNotes st))
        as [(ps & Hps & _ & ->)|[(ps & Hps & _ & Hroom & ->)
           |[(ps & Hps & _ & _ & ->)|[Hps ->]]]]; cbn [fst];
        try (exists pitches; split; assumption).
      * destruct (Z.eq_dec (chordTime (time note)) (chordTime (time new))) as [Heq|Hne].
        -- rewrite Heq, Map_get_set_same. rewrite Heq, Hps in Hget.
           injection Hget as ->. eexists. split; [reflexivity|].
           destruct Hplace as [Hin|Hfull]; [|contradiction].
           left. apply in_or_app. left. exact Hin.
        -- rewrite Map_get_set_other by exact Hne. exists pitches. split; assumption.
      * destruct (Z.eq_dec (chordTime (time note)) (chordTime (time new))) as [Heq|Hne].
        -- rewrite Heq, Hps in Hget. discriminate.
        -- rewrite Map_get_set_other by exact Hne. exists pitches. split; assumption.
    + destruct (insertPitch_spec settings (chordTime (time new)) (encodedPitch new)
                  (rs_chords st) (rs_skippedNotes st))
        as [(ps & Hps & Hin & ->)|[(ps & Hps & _ & _ & ->)
           |[(ps & Hps & _ & Hfull & ->)|[Hps ->]]]]; cbn [fst].
      * exists ps. split; [exact Hps|left; exact Hin].
      * rewrite Map_get_set_same. eexists. split; [reflexivity|].
        left. apply in_or_app. right. left. reflexivity.
      * exists ps. split; [exact Hps|right; exact Hfull].
      * rewrite Map_get_set_same. eexists. split; [reflexivity|].
        left. left. reflexivity.
Qed.

Lemma readMidiData_chords_Permutation (mid : Midi) (settings : gmap string Q) :
  MidiInfo.chords (readMidiData mid settings)
  ≡ₚ rs_chords (readNotes settings (retainedNotes settings mid)).
Proof.
  rewrite readMidiData_readNotes. cbv zeta. cbn [MidiInfo.chords].
  destruct (Nat.eqb _ _); [reflexivity|apply Array_sort_Permutation].
Qed.

(** X8. The chords hold the notes of the file and nothing else.  Every
    pitch of every chord is the stored pitch of a note that passes the
    three tests and whose time rounds to the chord's time; and every such
    note has a chord at its rounded time, which holds the note's pitch
    unless the chord has as many pitches as [voices] allows. *)
Theorem readMidiData_provenance (mid : Midi) (settings : gmap string Q) :
  fromNotes (retainedNotes settings mid) (MidiInfo.chords (readMidiData mid settings))
  /\ Forall (placed settings (MidiInfo.chords (readMidiData mid settings)))
       (retainedNotes settings mid).
Proof.
  pose proof (readMidiData_chords_Permutation mid settings) as Hperm.
  pose proof (retainedNotes_keepsNote settings mid) as Hkeep.
  split.
  - intros chord pitch Hchord Hpitch.
    apply (readNotes_fromNotes settings _ Hkeep chord pitch); [|exact Hpitch].
    eapply Permutation_in; [exact Hperm|exact Hchord].
  - apply List.Forall_forall. intros note Hnote.
    destruct (readNotes_placed settings _ Hkeep note Hnote) as (pitches & Hget & Hplace).
    exists pitches. split; [|exact Hplace].
    eapply Permutation_in; [symmetry; exact Hperm|].
    apply Map_get_Some_In, Hget.
Qed.

(** ** Counting the notes *)

Lemma totalPitches_set_some (m : Chords) (key : Time) (old v : list Z) :
  Map_get m key = Some old ->
  (totalPitches (Map_set m key v) + length old = totalPitches m + length v)%nat.
Proof.
  unfold totalPitches. induction m as [|[k w] m IH]; simpl; [discriminate|].
  destruct (k =? key); simpl.
  - intros [= ->]. rewrite !length_app. lia.
  - intros Hget. specialize (IH Hget). rewrite !length_app. lia.
Qed.

Lemma totalPitches_set_none (m : Chords) (key : Time) (v : list Z) :
  Map_get m key = None ->
  totalPitches (Map_set m key v) = (totalPitches m + length v)%nat.
Proof.
  unfold totalPitches. induction m as [|[k w] m IH]; simpl.
  - intros _. rewrite app_nil_r. reflexivity.
  - destruct (k =? key); simpl; [discriminate|].
    intros Hget. specialize (IH Hget). rewrite !length_app. lia.
Qed.

Lemma totalPitches_Permutation (l l' : Chords) :
  l ≡ₚ l' -> totalPitches l = totalPitches l'.
Proof.
  intros Hperm. unfold totalPitches.
  apply Permutation_length, Permutation_flat_map, Hperm.
Qed.

Lemma readNotes_count_le (settings : gmap string Q) (l : list Note) :
  Forall (fun note => keepsNote settings note = true) l ->
  (totalPitches (rs_chords (readNotes settings l))
   + rs_skippedNotes (readNotes settings l) <= length l)%nat.
Proof.
  intros Hkeep. unfold readNotes.
  apply (fold_left_prefix_ind (readNote settings)
           (fun seen st =>
              (totalPitches (rs_chords st) + rs_skippedNotes st <= length seen)%nat)).
  - simpl. lia.
  - intros seen note rest st Hl Hseen.
    assert (Hnote : keepsNote settings note = true).
    { rewrite List.Forall_forall in Hkeep. apply Hkeep. rewrite Hl.
      apply in_or_app. right. left. reflexivity. }
    destruct (readNote_kept settings st note Hnote) as [-> ->].
    rewrite length_app. cbn [length].
    destruct (insertPitch_spec settings (chordTime (time note)) (encodedPitch note)
                (rs_chords st) (rs_skippedNotes st))
      as [(pitches & Hget & _ & ->)|[(pitches & Hget & _ & _ & ->)
         |[(pitches & Hget & _ & _ & ->)|[Hget ->]]]]; cbn [fst snd].
    + lia.
    + pose proof (totalPitches_set_some _ _ _ (pitches ++ [encodedPitch note]) Hget) as Ht.
      rewrite length_app in Ht. cbn [length] in Ht. lia.
    + lia.
    + rewrite totalPitches_set_none by exact Hget. cbn [length]. lia.
Qed.

Lemma readNotes_count_eq (settings : gmap string Q) (l : list Note) :
  Forall (fun note => keepsNote settings note = true) l ->
  NoDup (map noteKey l) ->
  (totalPitches (rs_chords (readNotes settings l))
   + rs_skippedNotes (readNotes settings l) = length l)%nat.
Proof.
  intros Hkeep Hnd. unfold readNotes.
  apply (fold_left_prefix_ind (readNote settings)
           (fun seen st =>
              fromNotes seen (rs_chords st)
              /\ (totalPitches (rs_chords st) + rs_skippedNotes st = length seen)%nat)).
  - split; [intros chord pitch []|reflexivity].
  - intros seen note rest st Hl [Hfrom Hseen].
    assert (Hsub : Forall (fun note => keepsNote settings note = true) (seen ++ [note])).
    { rewrite List.Forall_forall in *. intros n Hn. apply Hkeep. rewrite Hl.
      apply in_app_or in Hn as [Hn|[<-|[]]]; apply in_or_app; [left|right; left]; auto. }
    assert (Hnote : keepsNote settings note = true).
    { rewrite List.Forall_forall in Hsub. apply Hsub, in_or_app. right. left. reflexivity. }
    assert (Hfresh : forall n, In n seen -> noteKey n <> noteKey note).
    { intros n Hn Heq. rewrite Hl, map_app in Hnd.
      apply NoDup_app in Hnd as (_ & Hdisj & _).
      apply (Hdisj (noteKey n)).
      - apply list_elem_of_In, in_map, Hn.
      - rewrite Heq. apply list_elem_of_In. left. reflexivity. }
    split.
    { (* the pitches still come from the notes seen *)
      destruct (readNote_kept settings st note Hnote) as [-> _].
      destruct (insertPitch_spec settings (chordTime (time note)) (encodedPitch note)
                  (rs_chords st) (rs_skippedNotes st))
        as [(pitches & Hget & _ & ->)|[(pitches & Hget & _ & _ & ->)
           |[(pitches & Hget & _ & _ & ->)|[Hget ->]]]]; cbn [fst];
        intros chord pitch Hchord Hpitch.
      - destruct (Hfrom chord pitch Hchord Hpitch) as (n & Hn & Hkey).
        exists n. split; [apply in_or_app; left; exact Hn|exact Hkey].
      - apply Map_set_In in Hchord as [->|Hchord].
        + cbn [fst snd] in *. apply in_app_or in Hpitch as [Hpitch|[<-|[]]].
          * destruct (Hfrom _ pitch (Map_get_Some_In _ _ _ Hget) Hpitch) as (n & Hn & Hkey).
            exists n. split; [apply in_or_app; left; exact Hn|exact Hkey].
          * exists note. split; [apply in_or_app; right; left; reflexivity|reflexivity].
        + destruct (Hfrom chord pitch Hchord Hpitch) as (n & Hn & Hkey).
          exists n. split; [apply in_or_app; left; exact Hn|exact Hkey].
      - destruct (Hfrom chord pitch Hchord Hpitch) as (n & Hn & Hkey).
        exists n. split; [apply in_or_app; left; exact Hn|exact Hkey].
      - apply Map_set_In in Hchord as [->|Hchord].
        + cbn [fst snd] in *. destruct Hpitch as [<-|[]].
          exists note. split; [apply in_or_app; right; left; reflexivity|reflexivity].
        + destruct (Hfrom chord pitch Hchord Hpitch) as (n & Hn & Hkey).
          exists n. split; [apply in_or_app; left; exact Hn|exact Hkey]. }
    destruct (readNote_kept settings st note Hnote) as [-> ->].
    rewrite length_app. cbn [length].
    destruct (insertPitch_spec settings (chordTime (time note)) (encodedPitch note)
                (rs_chords st) (rs_skippedNotes st))
      as [(pitches & Hget & Hdup & ->)|[(pitches & Hget & _ & _ & ->)
         |[(pitches & Hget & _ & _ & ->)|[Hget ->]]]]; cbn [fst snd].
    + exfalso.
      destruct (Hfrom _ _ (Map_get_Some_In _ _ _ Hget) Hdup) as (n & Hn & Hkey).
      exact (Hfresh n Hn Hkey).
    + pose proof (totalPitches_set_some _ _ _ (pitches ++ [encodedPitch note]) Hget) as Ht.
      rewrite length_app in Ht. cbn [length] in Ht. lia.
    + lia.
    + rewrite totalPitches_set_none by exact Hget. cbn [length]. lia.
Qed.

(** X9. No note is counted twice: the pitches stored in the chords and the
    notes counted in [skippedNotes] are together at most the notes that
    pass the three tests.  When no two of those notes have the same rounded
    time and the same stored pitch, they are exactly as many: every note is
    either stored or counted as skipped. *)
Theorem readMidiData_accounting (mid : Midi) (settings : gmap string Q) :
  (totalPitches (MidiInfo.chords (readMidiData mid settings))
   + MidiInfo.skippedNotes (readMidiData mid settings)
   <= length (retainedNotes settings mid))%nat
  /\ (NoDup (map noteKey (retainedNotes settings mid)) ->
      (totalPitches (MidiInfo.chords (readMidiData mid settings))
       + MidiInfo.skippedNotes (readMidiData mid settings)
       = length (retainedNotes settings mid))%nat).
Proof.
  rewrite (totalPitches_Permutation _ _ (readMidiData_chords_Permutation mid settings)).
  rewrite readMidiData_readNotes. cbv zeta. cbn [MidiInfo.skippedNotes].
  split.
  - apply readNotes_count_le, retainedNotes_keepsNote.
  - apply readNotes_count_eq, retainedNotes_keepsNote.
Qed.

Lemma readMidiData_accounting_closeChord :
  (totalPitches (MidiInfo.chords (readMidiData closeChord DEFAULT_SETTINGS))
   + MidiInfo.skippedNotes (readMidiData closeChord DEFAULT_SETTINGS)
   = length (retainedNotes DEFAULT_SETTINGS closeChord))%nat.
Proof.
  apply (proj2 (readMidiData_accounting closeChord DEFAULT_SETTINGS)).
  apply (@bool_decide_unpack _ (@NoDup_dec (Z * Z)%type _ _)). vm_compute. exact I.
Defined.

(** ** The two settings *)



Lemma chordTime_mono (t1 t2 : Q) : (t1 <= t2)%Q -> chordTime t1 <= chordTime t2.
Proof.
  intros Hle. unfold chordTime, Math_round. apply Qfloor_resp_le.
  apply Qplus_le_l, Qmult_le_compat_r; [exact Hle|].
  apply Qlt_le_weak, Math_pow10_pos.
Qed.

Lemma readMidiData_keys_from (mid : Midi) (settings : gmap string Q) (start : Q) :
  settings !! "startTime"%string = Some start ->
  Forall (Z.le (chordTime start)) (map fst (MidiInfo.chords (readMidiData mid settings))).
Proof.
  intros Hstart.
  apply (readMidiData_invariant
           (fun chords => Forall (Z.le (chordTime start)) (map fst chords))).
  - constructor.
  - intros chords note skippedNotes Hall Hkeep. rewrite insertPitch_keys.
    destruct (Map_get chords (chordTime (time note))); [exact Hall|].
    apply Forall_app. split; [exact Hall|]. constructor; [|constructor].
    apply chordTime_mono. apply keepsNote_true in Hkeep as [_ Hlt].
    rewrite Hstart in Hlt. unfold js_lt in Hlt.
    apply negb_false_iff, Qle_bool_iff in Hlt. exact Hlt.
  - intros l l' Hperm Hl. rewrite <- (Permutation_map fst Hperm). exact Hl.
Qed.

(** X11. With [startTime] set, no chord lies before it: every chord time is
    at least the rounded [startTime]. *)
Theorem readMidiData_startTime (mid : Midi) (settings : gmap string Q) (start : Q) :
  settings !! "startTime"%string = Some start ->
  Forall (fun chord => chordTime start <= fst chord)
    (MidiInfo.chords (readMidiData mid settings)).
Proof.
  intros Hstart. rewrite <- List.Forall_map.
  apply readMidiData_keys_from, Hstart.
Qed.

Lemma readMidiData_startTime_cluster :
  Forall (fun chord => chordTime 0 <= fst chord)
    (MidiInfo.chords (readMidiData cluster DEFAULT_SETTINGS)).
Proof.
  apply readMidiData_startTime. reflexivity.
Defined.

(** ** convertToArray *)

Lemma budget_test (compressionEnabled : bool) (p t c : Z) :
  (if compressionEnabled
   then Math_ceil
          (inject_Z
             (p * Z.of_nat (elementLength "pitchArrays")
              + t * Z.of_nat (elementLength "timeArrays")
              + c * Z.of_nat (elementLength "chordArrays"))
           / inject_Z (Z.of_nat COMPRESSED_ELEMENT_LENGTH))
   else p + t + c)
  = sizeEstimate compressionEnabled p t c.
Proof.
  destruct compressionEnabled; [apply compressedSize_formula|reflexivity].
Qed.

Lemma totalPitches_cons (chord : Time * list Z) (entries : Chords) :
  totalPitches (chord :: entries) = (length (snd chord) + totalPitches entries)%nat.
Proof. unfold totalPitches. simpl. apply length_app. Qed.

(** The loop takes the chords one by one up to the first whose count
    makes the size exceed the budget: it returns the streams of the [n]
    chords before it, and [stopTime] is the time of that chord. *)
Lemma buildLoop_prefix compressionEnabled entries st :
  exists n,
    (n <= length entries)%nat
    /\ bs_owArrays (buildLoop compressionEnabled entries st)
       = {| pitchArrays := pitchArrays (bs_owArrays st) ++ sortedPitches (take n entries);
            timeArrays :=
              timeArrays (bs_owArrays st) ++ delaysFrom (bs_prevTime st) (take n entries);
            chordArrays := chordArrays (bs_owArrays st) ++ chordSizes (take n entries) |}
    /\ (n <> 0%nat ->
        sizeEstimate compressionEnabled
          (bs_pitchArrayElements st + Z.of_nat (totalPitches (take n entries)))
          (bs_timeArrayElements st + Z.of_nat n)
          (bs_chordArrayElements st + Z.of_nat n)
        <= MAX_TOTAL_ARRAY_ELEMENTS)
    /\ match entries !! n with
       | None => bs_stopTime (buildLoop compressionEnabled entries st) = bs_stopTime st
       | Some chord =>
           bs_stopTime (buildLoop compressionEnabled entries st) = fst chord
           /\ MAX_TOTAL_ARRAY_ELEMENTS
              < sizeEstimate compressionEnabled
                  (bs_pitchArrayElements st + Z.of_nat (totalPitches (take (S n) entries)))
                  (bs_timeArrayElements st + Z.of_nat (S n))
                  (bs_chordArrayElements st + Z.of_nat (S n))
       end.
Proof.
  revert st. induction entries as [|[currentChordTime pitches] rest IH]; intros st.
  - exists 0%nat. simpl. rewrite !app_nil_r. destruct (bs_owArrays st).
    repeat split; [lia|congruence].
  - cbn [buildLoop]. rewrite budget_test.
    set (p := bs_pitchArrayElements st + Z.of_nat (length pitches)).
    set (t := bs_timeArrayElements st + 1).
    set (c := bs_chordArrayElements st + 1).
    destruct (sizeEstimate compressionEnabled p t c >? MAX_TOTAL_ARRAY_ELEMENTS) eqn:Hgt.
    + exists 0%nat. cbn [take lookup list_lookup bs_owArrays bs_stopTime fst].
      simpl sortedPitches. simpl delaysFrom. simpl chordSizes.
      rewrite !app_nil_r. destruct (bs_owArrays st).
      split; [simpl; lia|]. split; [reflexivity|]. split; [congruence|].
      split; [reflexivity|].
      apply Z.gtb_lt in Hgt. rewrite totalPitches_cons. cbn [snd].
      unfold totalPitches at 1. simpl flat_map. simpl length.
      subst p t c.
      replace (bs_pitchArrayElements st + Z.of_nat (length pitches + 0))
        with (bs_pitchArrayElements st + Z.of_nat (length pitches)) by lia.
      exact Hgt.
    + rewrite Z.gtb_ltb in Hgt. apply Z.ltb_ge in Hgt.
      match goal with
      | |- context [buildLoop _ rest ?s] => destruct (IH s) as (n & Hn & Harr & Hfit & Hstop)
      end.
      cbn [bs_owArrays bs_pitchArrayElements bs_timeArrayElements bs_chordArrayElements
           bs_prevTime bs_stopTime] in Harr, Hfit, Hstop.
      fold p t c in Hfit, Hstop.
      exists (S n). cbn [take lookup list_lookup length].
      split; [lia|]. split; [|split].
      * rewrite Harr, pushAll_pitchArrays, pushTo_chordArrays, pushTo_timeArrays.
        cbn [pitchArrays timeArrays chordArrays].
        unfold sortedPitches, chordSizes. simpl flat_map. simpl map. simpl delaysFrom.
        rewrite <- !app_assoc. reflexivity.
      * intros _. rewrite totalPitches_cons. cbn [snd].
        destruct n as [|n'].
        -- unfold totalPitches. simpl.
           replace (bs_pitchArrayElements st + Z.of_nat (length pitches + 0)) with p
             by (subst p; lia).
           exact Hgt.
        -- specialize (Hfit ltac:(discriminate)).
           etransitivity; [|exact Hfit]. apply Z.eq_le_incl. subst p t c. f_equal; lia.
      * destruct (rest !! n) as [chord|].
        -- destruct Hstop as [Hstop Hover]. split; [exact Hstop|].
           eapply Z.lt_le_trans; [exact Hover|]. apply Z.eq_le_incl.
           change (take (S (S n)) ((currentChordTime, pitches) :: rest))
             with ((currentChordTime, pitches) :: take (S n) rest).
           rewrite (totalPitches_cons (currentChordTime, pitches)). cbn [snd].
           subst p t c. f_equal; lia.
        -- exact Hstop.
Qed.

Lemma estimateOf_nil (compressionEnabled : bool) :
  estimateOf compressionEnabled [] = 0.
Proof. destruct compressionEnabled; reflexivity. Qed.

Lemma convertToArray_streams (chords : Chords) (compressionEnabled : bool) :
  exists n,
    ArrayInfo.owArrays (fst (convertToArray chords compressionEnabled))
    = streamsOf (firstKey chords) (take n chords).
Proof.
  unfold convertToArray. cbn [fst ArrayInfo.owArrays].
  match goal with
  | |- context [buildLoop _ _ ?s] =>
      destruct (buildLoop_prefix compressionEnabled chords s) as (n & _ & Harr & _)
  end.
  exists n. exact Harr.
Qed.

Lemma convertToArray_prefix_spec (chords : Chords) (compressionEnabled : bool) :
  exists n,
    (n <= length chords)%nat
    /\ ArrayInfo.owArrays (fst (convertToArray chords compressionEnabled))
       = streamsOf (firstKey chords) (take n chords)
    /\ estimateOf compressionEnabled (take n chords) <= MAX_TOTAL_ARRAY_ELEMENTS
    /\ match chords !! n with
       | None =>
           ArrayInfo.stopTime (fst (convertToArray chords compressionEnabled))
           = fst <$> last chords
       | Some chord =>
           MAX_TOTAL_ARRAY_ELEMENTS < estimateOf compressionEnabled (take (S n) chords)
           /\ ArrayInfo.stopTime (fst (convertToArray chords compressionEnabled))
              = if fst chord =? 0 then fst <$> last chords else Some (fst chord)
       end.
Proof.
  unfold convertToArray. cbn [fst ArrayInfo.owArrays ArrayInfo.stopTime].
  match goal with
  | |- context [buildLoop _ _ ?s] =>
      destruct (buildLoop_prefix compressionEnabled chords s)
        as (n & Hn & Harr & Hfit & Hstop)
  end.
  cbn [bs_owArrays bs_pitchArrayElements bs_timeArrayElements bs_chordArrayElements
       bs_prevTime bs_stopTime emptyArrays pitchArrays timeArrays chordArrays] in *.
  rewrite !Z.add_0_l in Hfit.
  assert (Hest : forall m, (m <= length chords)%nat ->
            estimateOf compressionEnabled (take m chords)
            = sizeEstimate compressionEnabled
                (Z.of_nat (totalPitches (take m chords))) (Z.of_nat m) (Z.of_nat m)).
  { intros m Hm. unfold estimateOf. rewrite length_take, Nat.min_l by exact Hm.
    reflexivity. }
  exists n. split; [exact Hn|]. split; [exact Harr|]. split.
  - destruct n as [|n'].
    + change (take 0 chords) with (@nil (Time * list Z)). rewrite estimateOf_nil.
      unfold MAX_TOTAL_ARRAY_ELEMENTS. lia.
    + rewrite Hest by exact Hn. apply Hfit. discriminate.
  - unfold Chords, Time in *. destruct (chords !! n) as [chord|] eqn:Hchord.
    + destruct Hstop as [-> Hover]. split; [|reflexivity].
      apply lookup_lt_Some in Hchord. rewrite Hest by lia.
      rewrite !Z.add_0_l in Hover. exact Hover.
    + rewrite Hstop. reflexivity.
Qed.


Lemma totalPitches_take_le (entries : Chords) (m m' : nat) :
  (m <= m')%nat -> (totalPitches (take m entries) <= totalPitches (take m' entries))%nat.
Proof.
  revert m m'. induction entries as [|chord entries IH]; intros [|m] [|m'] Hle;
    simpl; try lia.
  - unfold totalPitches at 1. simpl. lia.
  - rewrite !totalPitches_cons. specialize (IH m m'). lia.
Qed.

Lemma estimateOf_take_mono (compressionEnabled : bool) (entries : Chords) (m m' : nat) :
  (m <= m')%nat ->
  estimateOf compressionEnabled (take m entries)
  <= estimateOf compressionEnabled (take m' entries).
Proof.
  intros Hle. unfold estimateOf.
  pose proof (totalPitches_take_le entries m m' Hle).
  assert (length (take m entries) <= length (take m' entries))%nat
    by (rewrite !length_take; lia).
  apply sizeEstimate_mono; lia.
Qed.

(** X12. [convertToArray] returns the streams of the longest prefix of the
    chords whose computed size is within [MAX_TOTAL_ARRAY_ELEMENTS]: the
    chords are taken in order, and nothing after the first chord that does
    not fit is looked at.  When every chord fits, [stopTime] is the time of
    the last chord; otherwise it is the time of the first chord left out,
    unless that time is 0, which the function reads as [the entire song
    was added]. *)
Theorem convertToArray_prefix (chords : Chords) (compressionEnabled : bool) :
  exists n,
    (n <= length chords)%nat
    /\ ArrayInfo.owArrays (fst (convertToArray chords compressionEnabled))
       = streamsOf (firstKey chords) (take n chords)
    /\ (forall m, (m <= length chords)%nat ->
          estimateOf compressionEnabled (take m chords) <= MAX_TOTAL_ARRAY_ELEMENTS
          <-> (m <= n)%nat)
    /\ ArrayInfo.stopTime (fst (convertToArray chords compressionEnabled))
       = match chords !! n with
         | None => fst <$> last chords
         | Some chord => if fst chord =? 0 then fst <$> last chords else Some (fst chord)
         end.
Proof.
  destruct (convertToArray_prefix_spec chords compressionEnabled)
    as (n & Hn & Harr & Hfit & Hstop).
  exists n. split; [exact Hn|]. split; [exact Harr|]. split.
  - intros m Hm. split.
    + intros Hfits. destruct (le_lt_dec m n) as [Hle|Hgt]; [exact Hle|exfalso].
      pose proof (estimateOf_take_mono compressionEnabled chords (S n) m Hgt) as Hmono.
      unfold Chords, Time in *.
      destruct (chords !! n) as [chord|] eqn:Hchord.
      * destruct Hstop as [Hover _]. lia.
      * apply lookup_ge_None in Hchord. lia.
    + intros Hle.
      pose proof (estimateOf_take_mono compressionEnabled chords m n Hle). lia.
  - unfold Chords, Time in *. destruct (chords !! n) as [chord|].
    + apply Hstop.
    + exact Hstop.
Qed.

Lemma delaysFrom_bounds (prevTime : Time) (entries : Chords) :
  StronglySorted Z.lt (map fst entries) ->
  Forall (Z.le prevTime) (map fst entries) ->
  Forall (fitsField MAX_TIME_INTERVAL) (delaysFrom prevTime entries).
Proof.
  revert prevTime. induction entries as [|[t pitches] rest IH]; intros prevTime Hsorted Hfrom.
  - constructor.
  - simpl in *. apply StronglySorted_inv in Hsorted as [Hsorted Hlater].
    apply Forall_cons in Hfrom as [Hfirst _].
    constructor.
    + unfold fitsField, timeInterval. split; [|apply Z.le_min_r].
      apply Z.min_glb; [lia|unfold MAX_TIME_INTERVAL; lia].
    + apply IH; [exact Hsorted|].
      eapply Forall_impl; [exact Hlater|]. intros key Hkey. apply Z.lt_le_incl, Hkey.
Qed.

Lemma delaysFrom_take (prevTime : Time) (entries : Chords) (n : nat) :
  delaysFrom prevTime (take n entries) = take n (delaysFrom prevTime entries).
Proof.
  revert prevTime n. induction entries as [|[t pitches] rest IH]; intros prevTime [|n];
    simpl; try reflexivity.
  rewrite IH. reflexivity.
Qed.

Lemma firstKey_least (chords : Chords) :
  StronglySorted Z.lt (map fst chords) ->
  Forall (Z.le (firstKey chords)) (map fst chords).
Proof.
  destruct chords as [|[t pitches] rest]; simpl; intros Hsorted; [constructor|].
  apply StronglySorted_inv in Hsorted as [_ Hlater].
  constructor; [lia|].
  eapply Forall_impl; [exact Hlater|]. intros key Hkey. apply Z.lt_le_incl, Hkey.
Qed.

(** X13. For chords in ascending order of time, every delay
    [convertToArray] writes lies between 0 and [MAX_TIME_INTERVAL]: a gap of
    more than 9999 milliseconds is written as 9999.  The first delay is
    0. *)
Theorem convertToArray_delays (chords : Chords) (compressionEnabled : bool) :
  StronglySorted Z.lt (map fst chords) ->
  Forall (fitsField MAX_TIME_INTERVAL)
    (timeArrays (ArrayInfo.owArrays (fst (convertToArray chords compressionEnabled))))
  /\ (forall delay,
        head (timeArrays (ArrayInfo.owArrays (fst (convertToArray chords compressionEnabled))))
        = Some delay ->
        delay = 0).
Proof.
  intros Hsorted.
  destruct (convertToArray_streams chords compressionEnabled) as [n ->].
  cbn [streamsOf timeArrays]. rewrite delaysFrom_take. split.
  - apply Forall_take, delaysFrom_bounds; [exact Hsorted|apply firstKey_least, Hsorted].
  - intros delay.
    destruct chords as [|[t pitches] rest], n as [|n]; simpl; try discriminate.
    unfold timeInterval. rewrite Z.sub_diag. intros [= <-]. reflexivity.
Qed.

Lemma convertToArray_delays_example :
  Forall (fitsField MAX_TIME_INTERVAL)
    (timeArrays
       (ArrayInfo.owArrays
          (fst (convertToArray [(0, [36]); (500, [40]); (20000, [43])] true)))).
Proof.
  refine (proj1 (convertToArray_delays _ _ _)).
  simpl. repeat (constructor; try lia).
Defined.

(** X14. The arrays [convertToArray] returns are within the budget it
    tests: without compression they hold at most [MAX_TOTAL_ARRAY_ELEMENTS]
    elements in all; with compression it is the size computed from the
    digit counts, [ceil((2 p + 4 t + c) / 7)], that is at most
    [MAX_TOTAL_ARRAY_ELEMENTS]. *)
Theorem convertToArray_budget (chords : Chords) (compressionEnabled : bool) :
  let arrays := ArrayInfo.owArrays (fst (convertToArray chords compressionEnabled)) in
  let p := Z.of_nat (length (pitchArrays arrays)) in
  let t := Z.of_nat (length (timeArrays arrays)) in
  let c := Z.of_nat (length (chordArrays arrays)) in
  if compressionEnabled
  then (2 * p + 4 * t + c + 6) / 7 <= MAX_TOTAL_ARRAY_ELEMENTS
  else p + t + c <= MAX_TOTAL_ARRAY_ELEMENTS.
Proof.
  pose proof (convertToArray_within_estimate chords compressionEnabled) as Hest.
  destruct compressionEnabled; exact Hest.
Qed.

(** ** readMidiData and convertToArray together *)

Lemma sortedPitches_Forall (P : Z -> Prop) (entries : Chords) :
  Forall (fun chord => Forall P (snd chord)) entries -> Forall P (sortedPitches entries).
Proof.
  unfold sortedPitches. induction 1 as [|chord entries Hchord Hall IH]; simpl; [constructor|].
  apply Forall_app. split; [|exact IH]. rewrite Array_sort_Permutation. exact Hchord.
Qed.

Lemma readMidiData_convertToArray_fit (mid : Midi) (settings : gmap string Q)
    (compressionEnabled : bool) (V : Z) :
  1 <= V ->
  settings !! "voices"%string = Some (inject_Z V) ->
  Forall (fitsField (PIANO_RANGE.MAX - PIANO_RANGE.MIN))
    (pitchArrays
       (ArrayInfo.owArrays
          (fst (convertToArray (MidiInfo.chords (readMidiData mid settings))
                  compressionEnabled))))
  /\ Forall (fitsField MAX_TIME_INTERVAL)
       (timeArrays
          (ArrayInfo.owArrays
             (fst (convertToArray (MidiInfo.chords (readMidiData mid settings))
                     compressionEnabled))))
  /\ Forall (fun size => 1 <= size <= V)
       (chordArrays
          (ArrayInfo.owArrays
             (fst (convertToArray (MidiInfo.chords (readMidiData mid settings))
                     compressionEnabled)))).
Proof.
  intros HV Hvoices.
  destruct (convertToArray_streams (MidiInfo.chords (readMidiData mid settings))
              compressionEnabled) as [n ->].
  cbn [streamsOf pitchArrays timeArrays chordArrays].
  pose proof (readMidiData_chordShape mid settings) as Hshape.
  pose proof (readMidiData_withinVoices settings V HV Hvoices mid) as Hcap.
  split; [|split].
  - apply sortedPitches_Forall, Forall_take.
    eapply Forall_impl; [exact Hshape|]. intros chord (_ & _ & Hrange). exact Hrange.
  - rewrite delaysFrom_take.
    apply Forall_take, delaysFrom_bounds;
      [|apply firstKey_least]; apply readMidiData_keys_ascending.
  - unfold chordSizes. rewrite List.Forall_map. apply Forall_take.
    rewrite List.Forall_forall in *. intros chord Hchord.
    destruct (Hshape chord Hchord) as (Hne & _). destruct (Hcap chord Hchord) as [_ Hle].
    split; [|exact Hle]. destruct (snd chord); [congruence|simpl; lia].
Qed.

(** X15. Whatever the file, with [voices] an integer [V >= 1] the arrays
    [convertToArray] makes of the chords of [readMidiData] hold pitches
    between 0 and 64, delays between 0 and 9999, and chord sizes between 1
    and [V]: the pitches always fit two digits, the delays four, and the
    chord sizes one digit as long as [V <= 9]. *)
Theorem readMidiData_convertToArray_fields (mid : Midi) (settings : gmap string Q)
    (compressionEnabled : bool) (V : Z) :
  1 <= V ->
  settings !! "voices"%string = Some (inject_Z V) ->
  let arrays :=
    ArrayInfo.owArrays
      (fst (convertToArray (MidiInfo.chords (readMidiData mid settings))
              compressionEnabled)) in
  Forall (fun pitch => 0 <= pitch <= 64) (pitchArrays arrays)
  /\ Forall (fun delay => 0 <= delay <= 9999) (timeArrays arrays)
  /\ Forall (fun size => 1 <= size <= V) (chordArrays arrays).
Proof.
  intros HV Hvoices arrays.
  exact (readMidiData_convertToArray_fit mid settings compressionEnabled V HV Hvoices).
Qed.

Lemma readMidiData_convertToArray_fields_cluster :
  Forall (fun size => 1 <= size <= 6)
    (chordArrays
       (ArrayInfo.owArrays
          (fst (convertToArray (MidiInfo.chords (readMidiData cluster DEFAULT_SETTINGS))
                  true)))).
Proof.
  refine (proj2 (proj2 (readMidiData_convertToArray_fields cluster DEFAULT_SETTINGS true 6 _ _))).
  - lia.
  - reflexivity.
Defined.

Lemma Forall_fitsFieldb (bound bound' : Z) (l : list Z) :
  bound <= bound' -> Forall (fitsField bound) l -> forallb (fitsFieldb bound') l = true.
Proof.
  intros Hle Hall. apply forallb_forall. rewrite List.Forall_forall in Hall.
  intros x Hx. destruct (Hall x Hx) as [H0 Hb]. unfold fitsFieldb.
  apply andb_true_iff. split; apply Z.leb_le; lia.
Qed.

(** X16. With [voices] an integer from 1 to 9 and compression enabled, the
    packed arrays of any file hold at most [MAX_TOTAL_ARRAY_ELEMENTS + 2]
    elements in all: each of the three arrays is packed on its own, so
    their sizes are rounded up separately, while the size [convertToArray]
    compares with the budget is rounded up once. *)
Theorem packed_size_bound (mid : Midi) (settings : gmap string Q) (V : Z) :
  1 <= V <= 9 ->
  settings !! "voices"%string = Some (inject_Z V) ->
  let packed :=
    fst (compressSongArrays
           (ArrayInfo.owArrays
              (fst (convertToArray (MidiInfo.chords (readMidiData mid settings)) true)))) in
  Z.of_nat (length (pitchArrays packed))
  + Z.of_nat (length (timeArrays packed))
  + Z.of_nat (length (chordArrays packed))
  <= MAX_TOTAL_ARRAY_ELEMENTS + 2.
Proof.
  intros HV Hvoices packed. subst packed.
  destruct (readMidiData_convertToArray_fit mid settings true V ltac:(lia) Hvoices)
    as (Hp & Ht & Hc).
  pose proof (convertToArray_within_estimate
                (MidiInfo.chords (readMidiData mid settings)) true) as Hest.
  set (arrays := ArrayInfo.owArrays
                   (fst (convertToArray (MidiInfo.chords (readMidiData mid settings)) true)))
    in *.
  destruct (packed_counts arrays) as (-> & -> & ->).
  - apply (Forall_fitsFieldb (PIANO_RANGE.MAX - PIANO_RANGE.MIN)); [|exact Hp].
    unfold PIANO_RANGE.MAX, PIANO_RANGE.MIN. lia.
  - apply (Forall_fitsFieldb MAX_TIME_INTERVAL); [|exact Ht].
    unfold MAX_TIME_INTERVAL. lia.
  - apply (Forall_fitsFieldb V); [lia|].
    eapply Forall_impl; [exact Hc|]. intros size Hsize. cbv beta in Hsize.
    unfold fitsField. lia.
  - unfold sizeEstimate in Hest. unfold MAX_TOTAL_ARRAY_ELEMENTS in *.
    Z.div_mod_to_equations. lia.
Qed.

Lemma packed_size_bound_cluster :
  Z.of_nat (length (pitchArrays
     (fst (compressSongArrays
             (ArrayInfo.owArrays
                (fst (convertToArray
                        (MidiInfo.chords (readMidiData cluster DEFAULT_SETTINGS)) true)))))))
  + Z.of_nat (length (timeArrays
     (fst (compressSongArrays
             (ArrayInfo.owArrays
                (fst (convertToArray
                        (MidiInfo.chords (readMidiData cluster DEFAULT_SETTINGS)) true)))))))
  + Z.of_nat (length (chordArrays
     (fst (compressSongArrays
             (ArrayInfo.owArrays
                (fst (convertToArray
                        (MidiInfo.chords (readMidiData cluster DEFAULT_SETTINGS)) true)))))))
  <= MAX_TOTAL_ARRAY_ELEMENTS + 2.
Proof.
  apply (packed_size_bound cluster DEFAULT_SETTINGS 6).
  - lia.
  - reflexivity.
Defined.

Lemma chordTime_zero : chordTime 0 = 0.
Proof. reflexivity. Qed.

Lemma first_chord_fits (compressionEnabled : bool) (chord : Time * list Z) :
  (length (snd chord) <= 65)%nat ->
  estimateOf compressionEnabled [chord] <= MAX_TOTAL_ARRAY_ELEMENTS.
Proof.
  intros Hlen. unfold estimateOf. rewrite totalPitches_cons.
  etransitivity.
  - apply (sizeEstimate_mono compressionEnabled _ _ _ 65 1 1);
      unfold totalPitches; simpl; lia.
  - destruct compressionEnabled; vm_compute; discriminate.
Qed.

(** X17. With [startTime] set to a value that is not negative,
    [convertToArray] takes at least the first chord of what [readMidiData]
    returns, and its [stopTime] is the time of the first chord left out,
    or of the last chord when none is left out: the value 0 that stands for
    [nothing left out] is never the time of a chord left out. *)
Theorem readMidiData_convertToArray_stopTime (mid : Midi) (settings : gmap string Q)
    (compressionEnabled : bool) (start : Q) :
  settings !! "startTime"%string = Some start ->
  (0 <= start)%Q ->
  let chords := MidiInfo.chords (readMidiData mid settings) in
  exists n,
    ArrayInfo.owArrays (fst (convertToArray chords compressionEnabled))
    = streamsOf (firstKey chords) (take n chords)
    /\ (chords <> [] -> n <> 0%nat)
    /\ ArrayInfo.stopTime (fst (convertToArray chords compressionEnabled))
       = match chords !! n with
         | Some chord => Some (fst chord)
         | None => fst <$> last chords
         end.
Proof.
  intros Hstart Hpos chords.
  destruct (convertToArray_prefix_spec chords compressionEnabled)
    as (n & Hn & Harr & Hfit & Hstop).
  assert (Hshape : Forall (fun chord => chordShape (snd chord)) chords)
    by apply readMidiData_chordShape.
  assert (Hsorted : StronglySorted Z.lt (map fst chords))
    by apply readMidiData_keys_ascending.
  assert (Hfrom : Forall (Z.le (chordTime start)) (map fst chords))
    by (apply readMidiData_keys_from, Hstart).
  assert (H0 : 0 <= chordTime start).
  { rewrite <- chordTime_zero. apply chordTime_mono, Hpos. }
  assert (Hn0 : chords <> [] -> n <> 0%nat).
  { intros Hne ->. destruct chords as [|first rest] eqn:Hchords; [congruence|].
    cbn [lookup list_lookup] in Hstop. destruct Hstop as [Hover _].
    change (take 1 (first :: rest)) with [first] in Hover.
    apply Forall_cons in Hshape as [(_ & Hnd & Hrange) _].
    pose proof (first_chord_fits compressionEnabled first
                  (distinct_pitches_length _ Hnd Hrange)).
    lia. }
  exists n. split; [exact Harr|]. split; [exact Hn0|].
  unfold Chords, Time in *.
  destruct (chords !! n) as [chord|] eqn:Hchord; [|exact Hstop].
  destruct Hstop as [_ ->].
  destruct chords as [|first rest] eqn:Hchords; [discriminate|].
  destruct n as [|n']; [exfalso; apply Hn0; [discriminate|reflexivity]|].
  cbn [lookup list_lookup] in Hchord.
  simpl in Hsorted, Hfrom.
  apply StronglySorted_inv in Hsorted as [_ Hlater].
  apply Forall_cons in Hfrom as [Hfirst _].
  assert (Hin : In (fst chord) (map fst rest)).
  { apply in_map, list_elem_of_In. eapply list_elem_of_lookup_2. exact Hchord. }
  rewrite List.Forall_forall in Hlater. specialize (Hlater _ Hin).
  destruct (Z.eqb_spec (fst chord) 0) as [Heq|Hne]; [exfalso; lia|reflexivity].
Qed.

Lemma readMidiData_convertToArray_stopTime_cluster :
  exists n,
    ArrayInfo.owArrays
      (fst (convertToArray (MidiInfo.chords (readMidiData cluster DEFAULT_SETTINGS)) false))
    = streamsOf (firstKey (MidiInfo.chords (readMidiData cluster DEFAULT_SETTINGS)))
        (take n (MidiInfo.chords (readMidiData cluster DEFAULT_SETTINGS)))
    /\ (MidiInfo.chords (readMidiData cluster DEFAULT_SETTINGS) <> [] -> n <> 0%nat)
    /\ ArrayInfo.stopTime
         (fst (convertToArray (MidiInfo.chords (readMidiData cluster DEFAULT_SETTINGS)) false))
       = match MidiInfo.chords (readMidiData cluster DEFAULT_SETTINGS) !! n with
         | Some chord => Some (fst chord)
         | None => fst <$> last (MidiInfo.chords (readMidiData cluster DEFAULT_SETTINGS))
         end.
Proof.
  apply (readMidiData_convertToArray_stopTime cluster DEFAULT_SETTINGS false 0).
  - reflexivity.
  - vm_compute. discriminate.
Defined.

(** ** compressSongArrays *)

Lemma substring_length (s : string) (i n : nat) :
  String.length (substring i n s) = Nat.min n (String.length s - i).
Proof.
  revert i n. induction s as [|c s IH]; intros [|i] [|n]; simpl; try reflexivity.
  - rewrite IH. simpl. rewrite Nat.sub_0_r. reflexivity.
  - rewrite IH. reflexivity.
  - rewrite IH. reflexivity.
Qed.

Lemma sliceLoop_lookup (stringBuffer : string) (i k : nat) (newElement : string) :
  sliceLoop stringBuffer i !! k = Some newElement ->
  String.length newElement
  = Nat.min COMPRESSED_ELEMENT_LENGTH
      (String.length stringBuffer - (i + COMPRESSED_ELEMENT_LENGTH * k))
  /\ (i + COMPRESSED_ELEMENT_LENGTH * k < String.length stringBuffer)%nat.
Proof.
  revert k newElement. funelim (sliceLoop stringBuffer i); intros k newElement Hk.
  - destruct k as [|k]; cbn [lookup list_lookup] in Hk.
    + injection Hk as <-. unfold slice. rewrite substring_length.
      rewrite Nat.mul_0_r, Nat.add_0_r. split; [f_equal; lia|assumption].
    + apply H in Hk as [Hlen Hlt]. unfold COMPRESSED_ELEMENT_LENGTH in *.
      split; [rewrite Hlen; f_equal; lia|lia].
  - discriminate.
Qed.

(** X18. The packer neither loses nor reorders a digit, whatever the
    elements: the packed elements of an array, joined, are the padded
    elements of the array, joined.  Every packed element has 7 characters,
    but the last one, which has between 1 and 7. *)
Theorem compressArray_chunks (arrayName : string) (songArray : list Z) :
  let stringBuffer :=
    join (map (fun x => padStart (toString x) (elementLength arrayName) "0") songArray) "" in
  join (compressArray arrayName songArray) "" = stringBuffer
  /\ length (compressArray arrayName songArray)
     = ((String.length stringBuffer + 6) / 7)%nat
  /\ (forall k newElement,
        compressArray arrayName songArray !! k = Some newElement ->
        String.length newElement = Nat.min 7 (String.length stringBuffer - 7 * k)
        /\ (1 <= String.length newElement)%nat).
Proof.
  intros stringBuffer. unfold compressArray. fold stringBuffer. split; [|split].
  - rewrite sliceLoop_join. reflexivity.
  - rewrite sliceLoop_length. f_equal. lia.
  - intros k newElement Hk. apply sliceLoop_lookup in Hk as [Hlen Hlt].
    unfold COMPRESSED_ELEMENT_LENGTH in *. rewrite Nat.add_0_l in Hlen, Hlt.
    split; [exact Hlen|lia].
Qed.

Lemma In_countFrom (start : Z) (n : nat) (x : Z) :
  start <= x < start + Z.of_nat n -> In x (countFrom start n).
Proof.
  revert start. induction n as [|n IH]; intros start Hx; [lia|].
  simpl. destruct (Z.eq_dec start x) as [Heq|Hne]; [left; exact Heq|].
  right. apply IH. lia.
Qed.

Lemma join_lengths (fields : list string) :
  String.length (join fields "") = list_sum (map String.length fields).
Proof.
  induction fields as [|f fields IH]; [reflexivity|].
  rewrite join_cons, length_append, IH. reflexivity.
Qed.

Lemma chordSize_digits (size : Z) :
  0 <= size <= 99 ->
  String.length (padStart (toString size) (elementLength "chordArrays") "0")
  = if 10 <=? size then 2%nat else 1%nat.
Proof.
  intros Hsize. destruct (Z.leb_spec 10 size) as [Hbig|Hsmall].
  - assert (Hall : forallb
                     (fun x =>
                        Nat.eqb
                          (String.length
                             (padStart (toString x) (elementLength "chordArrays") "0"))
                          2)
                     (countFrom 10 90) = true) by (vm_compute; reflexivity).
    rewrite forallb_forall in Hall. apply Nat.eqb_eq, Hall, In_countFrom. lia.
  - assert (Hfield : fieldChecks 1 size = true) by (apply chordSize_field; split; lia).
    apply fieldChecks_correct in Hfield as [Hlen _]. exact Hlen.
Qed.

(** X19. The chord sizes are packed one digit each only up to 9: a size
    from 10 to 99 is written with its two digits, as [padStart] never
    shortens.  The digits of the packed [chordArrays] are therefore as many
    as the chords plus the chords of 10 pitches or more, and with such a
    chord the digits no longer stand one per chord. *)
Theorem chordArrays_digits (songArray : list Z) :
  Forall (fun size => 0 <= size <= 99) songArray ->
  String.length (join (compressArray "chordArrays" songArray) "")
  = (length songArray
     + length (List.filter (fun size => (10 <=? size)%Z) songArray))%nat.
Proof.
  intros Hall. unfold compressArray. rewrite sliceLoop_join. cbn [string_skip].
  rewrite join_lengths, map_map.
  induction Hall as [|size songArray Hsize Hall IH]; [reflexivity|].
  cbn [map List.filter length].
  match goal with
  | |- list_sum (?x :: ?l) = _ => change (list_sum (x :: l)) with (x + list_sum l)%nat
  end.
  rewrite IH, (chordSize_digits size Hsize).
  destruct (10 <=? size); cbn [length]; lia.
Qed.

Lemma chordArrays_digits_example :
  String.length (join (compressArray "chordArrays" [2; 10; 1]) "") = 4%nat.
Proof.
  apply (chordArrays_digits [2; 10; 1]). repeat (constructor; try lia).
Defined.

(** ** The order of the pitches of a chord *)

Lemma numericOn_spec (start : Z) (n : nat) (x y : Z) :
  numericOn start n = true ->
  start <= x < start + Z.of_nat n ->
  start <= y < start + Z.of_nat n ->
  Qle_bool (defaultCompare x y) 0 = (x <=? y).
Proof.
  unfold numericOn. intros Hall Hx Hy.
  rewrite forallb_forall in Hall. specialize (Hall x (In_countFrom _ _ _ Hx)).
  rewrite forallb_forall in Hall. specialize (Hall y (In_countFrom _ _ _ Hy)).
  apply Bool.eqb_prop, Hall.
Qed.

Lemma sort_insert_numeric (P : Z -> Prop) (compareFn : Z -> Z -> Q) (x : Z) (l : list Z) :
  (forall a b, P a -> P b -> Qle_bool (compareFn a b) 0 = (a <=? b)) ->
  P x -> Forall P l ->
  StronglySorted Z.le l -> StronglySorted Z.le (sort_insert compareFn x l).
Proof.
  intros Hcmp Hx Hall Hsorted. induction Hsorted as [|y l Hsorted IH Hle]; simpl.
  - constructor; constructor.
  - apply Forall_cons in Hall as [Hy Hall]. rewrite (Hcmp x y Hx Hy).
    destruct (Z.leb_spec x y) as [Hxy|Hxy].
    + constructor; [constructor; assumption|].
      constructor; [exact Hxy|].
      eapply Forall_impl; [exact Hle|]. intros z Hz. lia.
    + constructor; [exact (IH Hall)|].
      rewrite sort_insert_Permutation. constructor; [lia|exact Hle].
Qed.

Lemma Array_sort_numeric (P : Z -> Prop) (compareFn : Z -> Z -> Q) (l : list Z) :
  (forall a b, P a -> P b -> Qle_bool (compareFn a b) 0 = (a <=? b)) ->
  Forall P l -> StronglySorted Z.le (Array_sort compareFn l).
Proof.
  intros Hcmp. induction 1 as [|x l Hx Hall IH]; [constructor|].
  change (Array_sort compareFn (x :: l))
    with (sort_insert compareFn x (Array_sort compareFn l)).
  apply (sort_insert_numeric P); try assumption.
  rewrite Array_sort_Permutation. exact Hall.
Qed.

(** X20. [pitches.sort()] keeps the pitches of the chord, and puts them in
    ascending numeric order when they are written with the same number of
    digits, all below 10 or all from 10 to 99: the comparison of the
    decimal strings is then the comparison of the numbers. *)
Theorem pitches_sort_same_digits (pitches : list Z) :
  sameDigits pitches ->
  Array_sort defaultCompare pitches ≡ₚ pitches
  /\ StronglySorted Z.le (Array_sort defaultCompare pitches).
Proof.
  intros Hdigits. split; [apply Array_sort_Permutation|].
  destruct Hdigits as [Hall|Hall].
  - apply (Array_sort_numeric (fun pitch => 0 <= pitch <= 9)); [|exact Hall].
    intros a b Ha Hb. apply (numericOn_spec 0 10); [vm_compute; reflexivity|lia|lia].
  - apply (Array_sort_numeric (fun pitch => 10 <= pitch <= 99)); [|exact Hall].
    intros a b Ha Hb. apply (numericOn_spec 10 90); [vm_compute; reflexivity|lia|lia].
Qed.

Lemma pitches_sort_same_digits_example :
  Array_sort defaultCompare [43; 36; 40] ≡ₚ [43; 36; 40]
  /\ StronglySorted Z.le (Array_sort defaultCompare [43; 36; 40]).
Proof.
  apply pitches_sort_same_digits. right. repeat (constructor; try lia).
Defined.

(** ** writeWorkshopRules *)

#[local] Opaque innerIterations.

Lemma declarations_length {A} (songArray : list A) :
  length (declarations songArray) = ((length songArray + 998) / 999)%nat.
Proof.
  funelim (declarations songArray); simp declarations.
  - reflexivity.
  - reflexivity.
  - cbn [length]. rewrite H, length_drop. cbn [length].
    pose proof innerIterations_value as Hi.
    destruct (le_lt_dec (S (length rest)) innerIterations) as [Hle|Hgt].
    + replace (S (length rest) - innerIterations)%nat with 0%nat by lia.
      change ((0 + 998) / 999)%nat with 0%nat.
      unfold MAX_OW_ARRAY_SIZE in Hi.
      apply (Nat.div_unique _ 999 1 (S (length rest))); lia.
    + unfold MAX_OW_ARRAY_SIZE in Hi.
      replace (S (S (length rest)) + 998)%nat
        with (S (length rest) - innerIterations + 998 + 1 * 999)%nat by lia.
      rewrite Nat.div_add by lia. lia.
Qed.

Lemma declarations_two {A} (songArray : list A) :
  Forall (fun entries => (2 <= length entries)%nat) (declarations songArray).
Proof.
  funelim (declarations songArray); simp declarations.
  - constructor.
  - constructor; [simpl; lia|constructor].
  - constructor; [|exact H].
    cbn [map length]. rewrite length_map, length_take. cbn [length].
    pose proof innerIterations_value as Hi. unfold MAX_OW_ARRAY_SIZE in Hi. lia.
Qed.

(** X21. The rules [writeWorkshopRules] writes for one array.  Every
    element of the array is written once, in order, in array literals
    numbered from 0; a literal has at least 2 and at most
    [MAX_OW_ARRAY_SIZE] entries, and an array of [n] elements takes
    [ceil(n / 999)] rules; as the inner loop appends [songArray[index]]
    before it tests [index], the last literal ends with an entry
    [undefined] exactly when [n] is 1 modulo 999. *)
Theorem writeLoop_rules {A} `{ToString A} (arrayName : string) (songArray : list A) :
  writeLoop arrayName songArray 0 0
  = renderRules arrayName 0 (declarations songArray)
  /\ omap id (concat (declarations songArray)) = songArray
  /\ Forall
       (fun entries =>
          (2 <= length entries)%nat /\ Z.of_nat (length entries) <= MAX_OW_ARRAY_SIZE)
       (declarations songArray)
  /\ length (declarations songArray) = ((length songArray + 998) / 999)%nat
  /\ (None ∈ concat (declarations songArray)
      <-> Z.of_nat (length songArray) mod MAX_OW_ARRAY_SIZE = 1).
Proof.
  split; [apply writeLoop_declarations|].
  split; [apply declarations_elements|].
  split; [|split; [apply declarations_length|apply declarations_undefined]].
  pose proof (declarations_two songArray) as Htwo.
  pose proof (declarations_size songArray) as Hsize.
  rewrite List.Forall_forall in *. intros entries Hin.
  split; [apply Htwo, Hin|apply Hsize, Hin].
Qed.

#[local] Transparent innerIterations.


(** ** convertMidi *)




(** X23. The settings reach the conversion only through the fallback of
    lines 86 to 88: converting with some settings is converting with the
    settings the fallback chooses, and converting with no settings is
    converting with [DEFAULT_SETTINGS]. *)
Theorem convertMidi_effectiveSettings (mid : Midi) (settings : gmap string Q)
    (compressionEnabled : bool) :
  convertMidi mid settings compressionEnabled
  = convertMidi mid (effectiveSettings settings) compressionEnabled
  /\ convertMidi mid ∅ compressionEnabled
     = convertMidi mid DEFAULT_SETTINGS compressionEnabled.
Proof.
  assert (Hsame : forall s s', effectiveSettings s = effectiveSettings s' ->
            convertMidi mid s compressionEnabled = convertMidi mid s' compressionEnabled).
  { intros s s' Heq. unfold convertMidi. rewrite Heq. reflexivity. }
  split; apply Hsame.
  - symmetry. apply effectiveSettings_idempotent.
  - reflexivity.
Qed.
